(** * ixmp.reporting.utils: partition enumerator, Key, quantity loader

    A shallow embedding of [src/ixmp/reporting/utils.py].  Python lists are
    Rocq lists, [str] is [string], a generator is the list of the values it
    yields in order, and a raised exception is the [Raise] branch of
    [result]. *)

From Stdlib Require Import ZArith NArith Ascii String.
From stdpp Require Import base tactics option list strings.

Local Open Scope string_scope.
Local Open Scope list_scope.

(** ** Exceptions *)

Inductive exn : Type :=
  | AttributeError
  | KeyError
  | ValueError
  | IndexError
  | AssertionError.

Inductive result (A : Type) : Type :=
  | Ok (a : A)
  | Raise (e : exn).
Arguments Ok {A} a.
Arguments Raise {A} e.

Definition bind {A B} (r : result A) (k : A -> result B) : result B :=
  match r with
  | Ok a => k a
  | Raise e => Raise e
  end.

Declare Scope py_scope.
Delimit Scope py_scope with py.
Notation "'let*' x ':=' r 'in' k" := (bind r (fun x => k))
  (at level 10, x pattern, r at level 100, k at level 200) : py_scope.
Local Open Scope py_scope.

(** ** Builtins used by the module *)

Module Builtins.

(** [math.ceil(n ** 0.5)] for a length [n]: the least [r] with [n <= r*r]
    (the float square root is exact on every length for which the
    [2 ** n - 1] iterations are feasible). *)
Definition ceil_sqrt (n : nat) : nat :=
  let r := Nat.sqrt n in
  if Nat.eqb (r * r) n then r else S r.

(** Binary digits, most significant first, as [format(n, 'b')] prints. *)
Fixpoint pos_digits (p : positive) : string :=
  match p with
  | xH => "1"
  | xO q => pos_digits q ++ "0"
  | xI q => pos_digits q ++ "1"
  end.

Definition bin (n : N) : string :=
  match n with
  | N0 => "0"
  | Npos p => pos_digits p
  end.

Fixpoint zeros (k : nat) : string :=
  match k with
  | O => ""
  | S k' => String "0" (zeros k')
  end.

(** [format(n, '0{w}b')]: zero-padded on the left to at least [w]
    characters, never truncated. *)
Definition format_0b (w : nat) (n : N) : string :=
  let d := bin n in
  zeros (w - String.length d) ++ d.

(** [int(c)] on a decimal digit character. *)
Definition int (c : ascii) : Z := (Z.of_N (N_of_ascii c) - 48)%Z.

(** Truth value of an int, and [not v]. *)
Definition truthy (v : Z) : bool := negb (Z.eqb v 0).
Definition py_not (v : Z) : bool := Z.eqb v 0.

(** [itertools.compress(data, selectors)]: stops with the shorter of the
    two. *)
Fixpoint compress {A} (data : list A) (selectors : list bool) : list A :=
  match data, selectors with
  | d :: data', s :: selectors' =>
      if s then d :: compress data' selectors' else compress data' selectors'
  | _, _ => []
  end.

(** [range(k)] *)
Definition range (k : nat) : list N := map N.of_nat (seq 0 k).

(** [s.split(sep)] for a one-character separator: cut at every
    occurrence, so the result has one more piece than [s] has [sep]s. *)
Fixpoint split (sep : ascii) (s : string) : list string :=
  match s with
  | EmptyString => [""]
  | String c s' =>
      if Ascii.eqb c sep then "" :: split sep s'
      else match split sep s' with
           | piece :: rest => String c piece :: rest
           | [] => [String c ""]
           end
  end.

(** [sep.join(pieces)] *)
Definition join (sep : string) (pieces : list string) : string :=
  String.concat sep pieces.

(** Occurrences of a character. *)
Fixpoint count (sep : ascii) (s : string) : nat :=
  match s with
  | EmptyString => 0
  | String c s' => (if Ascii.eqb c sep then 1 else 0) + count sep s'
  end.

End Builtins.
Import Builtins.

(** ** combo_partition *)

(** The selector tuples [a] and [b] built from pattern number [n] at
    padding width [w]. *)
Definition selectors (w : nat) (n : N) : list bool * list bool :=
  let vs := map int (list_ascii_of_string (format_0b w n)) in
  (map truthy vs, map py_not vs).

Definition combo_partition {A} (iterable : list A) : list (list A * list A) :=
  let w := ceil_sqrt (length iterable) in
  map (fun n =>
         let '(a, b) := selectors w n in
         (compress iterable a, compress iterable b))
      (range (2 ^ length iterable - 1)).

(** ** Key *)

Record Key : Type := mkKey { _name : string; _dims : list string }.

(** The objects that reach [from_str_or_key] and [__eq__]. *)
Inductive pyval : Type :=
  | VStr (s : string)
  | VKey (k : Key)
  | VNone.

(** [partial(aggregate, dimensions=others)] *)
Record partial_aggregate : Type := { dimensions : list string }.

(** [Key.__repr__] *)
Definition Key_repr (self : Key) : string :=
  join ":" [_name self; join "-" (_dims self)].

(** [s == other] for a [str] [s]: [str.__eq__] answers for strings only;
    on a Key it is [NotImplemented] and Python asks the reflected
    [Key.__eq__(other, s)], which compares two strings; on anything else
    the comparison falls back to identity. *)
Definition str_eq (s : string) (other : pyval) : bool :=
  match other with
  | VStr t => String.eqb s t
  | VKey k => String.eqb (Key_repr k) s
  | VNone => false
  end.

(** [Key.__eq__]: [repr(self) == other] *)
Definition Key_eq (self : Key) (other : pyval) : bool :=
  str_eq (Key_repr self) other.

(** [Key.from_str_or_key]: a Key is deep-copied; anything else is asked
    for its [split] method. *)
Definition from_str_or_key (value : pyval) : result Key :=
  match value with
  | VKey k => Ok k
  | VStr s =>
      match split ":" s with
      | [name; dims] => Ok (mkKey name (split "-" dims))
      | _ => Raise ValueError
      end
  | VNone => Raise AttributeError
  end.

(** [Key.aggregates]: the pairs (key, (partial(aggregate, ...), self)) in
    the order they are yielded. *)
Definition aggregates (self : Key) : list (Key * (partial_aggregate * Key)) :=
  map (fun '(agg_dims, others) =>
         (mkKey (_name self) agg_dims,
          ({| dimensions := others |}, self)))
      (combo_partition (_dims self)).

Section Hash.
(** [hash] on [str]: salted per process, so left abstract. *)
Variable str_hash : string -> Z.

(** [Key.__hash__] *)
Definition Key_hash (self : Key) : Z := str_hash (Key_repr self).
End Hash.

(** ** pandas and xarray, as far as quantity_as_xr uses them *)

Module Frames.

(** A table cell: a label or unit string, or a number (no claim computes
    with the numbers, so integers stand for them). *)
Inductive cell : Type :=
  | CStr (s : string)
  | CNum (z : Z).

#[export] Instance cell_eq_dec : EqDecision cell.
Proof. solve_decision. Defined.

(** [d[key]] on a list of (key, value) items, first match. *)
Fixpoint assoc {V} (key : string) (items : list (string * V)) : option V :=
  match items with
  | [] => None
  | (k, v) :: items' => if decide (k = key) then Some v else assoc key items'
  end.

(** [pd.DataFrame]: the levels of the row index ([[]] for the default,
    unnamed RangeIndex), the columns in order, and the number of rows. *)
Record DataFrame : Type := {
  index : list (string * list cell);
  columns : list (string * list cell);
  nrows : nat
}.

(** [pd.DataFrame.from_records([record])]: one row, one column per key. *)
Definition from_records1 (record : list (string * cell)) : DataFrame :=
  {| index := [];
     columns := map (fun '(k, v) => (k, [v])) record;
     nrows := 1 |}.

(** [data.pop(item)]: the column, and the frame without it; KeyError when
    there is no such column. *)
Definition pop (item : string) (data : DataFrame)
    : result (list cell * DataFrame) :=
  match assoc item (columns data) with
  | None => Raise KeyError
  | Some series =>
      Ok (series,
          {| index := index data;
             columns := filter (fun c => c.1 ≠ item) (columns data);
             nrows := nrows data |})
  end.

(** [pd.unique(series)]: distinct values in order of first appearance. *)
Fixpoint unique (series : list cell) : list cell :=
  match series with
  | [] => []
  | x :: series' => x :: filter (fun y => y ≠ x) (unique series')
  end.

(** [l.remove(x)]: drops the first occurrence; ValueError without one. *)
Fixpoint remove (x : string) (l : list string) : result (list string) :=
  match l with
  | [] => Raise ValueError
  | y :: l' =>
      if decide (y = x) then Ok l'
      else let* r := remove x l' in Ok (y :: r)
  end.

(** [[l.remove(x) for x in xs]] *)
Fixpoint remove_each (xs : list string) (l : list string)
    : result (list string) :=
  match xs with
  | [] => Ok l
  | x :: xs' => let* l' := remove x l in remove_each xs' l'
  end.

(** [data.set_index(keys, inplace=True)]: the named columns become the
    levels of the row index, in the order of [keys]. *)
Definition set_index (keys : list string) (data : DataFrame) : DataFrame :=
  {| index := omap (fun k => (fun s => (k, s)) <$> assoc k (columns data)) keys;
     columns := filter (fun c => c.1 ∉ keys) (columns data);
     nrows := nrows data |}.

(** [xr.Dataset]: the dimensions with their sizes, and per data variable
    the points of the table it holds, each a coordinate (one label per
    dimension) with its value.  Cells of the dense array that no row of
    the table fills are NaN in xarray and are not listed. *)
Record Dataset : Type := {
  sizes : list (string * nat);
  data_vars : list (string * list (list cell * cell))
}.

Record DataArray : Type := {
  da_name : string;
  da_dims : list string;
  da_attrs : list (string * cell);
  da_values : list (list cell * cell)
}.

(** The coordinate of each row: its label on every index level, or its
    position under the default index. *)
Definition row_labels (data : DataFrame) : list (list cell) :=
  match index data with
  | [] => map (fun i => [CNum (Z.of_nat i)]) (seq 0 (nrows data))
  | levels =>
      map (fun i => omap (fun level => level.2 !! i) levels)
          (seq 0 (nrows data))
  end.

(** [xr.Dataset.from_dataframe(data)]: an unnamed default index becomes
    the dimension 'index'; one level gives one dimension as long as the
    table; in both cases the values are kept as they are, in table order.
    Several levels (a MultiIndex) give one dimension per level, as long
    as the level has distinct labels, and must not repeat a row label.
    For several levels the points only record which row value belongs to
    which labels: the dense grid xarray builds (labels sorted, NaN where
    no row falls, integer columns promoted to float64 when a cell stays
    empty) is not laid out here, and no property below reads the values
    of an array with more than one dimension. *)
Definition from_dataframe (data : DataFrame) : result Dataset :=
  let labels := row_labels data in
  let vars := map (fun '(c, vals) => (c, zip labels vals)) (columns data) in
  match index data with
  | [] => Ok {| sizes := [("index", nrows data)]; data_vars := vars |}
  | [(d, _)] => Ok {| sizes := [(d, nrows data)]; data_vars := vars |}
  | levels =>
      if decide (NoDup labels) then
        Ok {| sizes := map (fun '(d, ls) => (d, length (unique ls))) levels;
              data_vars := vars |}
      else Raise ValueError
  end.

(** Position of a dimension among the dimensions. *)
Fixpoint position (dim : string) (dims : list string) : option nat :=
  match dims with
  | [] => None
  | d :: dims' => if decide (d = dim) then Some 0 else S <$> position dim dims'
  end.

(** [ds.squeeze(dim, drop=True)]: KeyError for an unknown dimension,
    ValueError for one longer than 1, IndexError for an empty one;
    otherwise the dimension and its coordinate go away. *)
Definition squeeze (dim : string) (ds : Dataset) : result Dataset :=
  match assoc dim (sizes ds), position dim (map fst (sizes ds)) with
  | Some n, Some i =>
      if decide (1 < n)%nat then Raise ValueError
      else if decide (n = 0)%nat then Raise IndexError
      else Ok {| sizes := filter (fun s => s.1 ≠ dim) (sizes ds);
                 data_vars :=
                   map (fun '(c, pts) =>
                          (c, map (fun '(co, v) => (delete i co, v)) pts))
                       (data_vars ds) |}
  | _, _ => Raise KeyError
  end.

(** [ds[col].assign_attrs(attrs).rename(name)] *)
Definition getitem_named (ds : Dataset) (col : string)
    (attrs : list (string * cell)) (name : string) : result DataArray :=
  match assoc col (data_vars ds) with
  | None => Raise KeyError
  | Some pts =>
      Ok {| da_name := name; da_dims := map fst (sizes ds);
            da_attrs := attrs; da_values := pts |}
  end.

End Frames.
Import Frames.

(** ** quantity_as_xr *)

(** What [getattr(scenario, kind)(name)] hands back: a scalar record (a
    dict) or a table. *)
Inductive retrieved : Type :=
  | ADict (record : list (string * cell))
  | AFrame (data : DataFrame).

(** A scenario, seen through [getattr]: the attributes it has, each a
    method from a quantity name to what it retrieves. *)
Definition Scenario : Type := string → option (string → result retrieved).

(** Lines 97-99: a dict is wrapped as a one-row table. *)
Definition as_frame (data : retrieved) : DataFrame :=
  match data with
  | ADict record => from_records1 record
  | AFrame df => df
  end.

(** Lines 101-108: the unit column is popped and must hold one distinct
    value; a table without one (KeyError) gets no attributes. *)
Definition strip_unit (data : DataFrame)
    : result (list (string * cell) * DataFrame) :=
  match pop "unit" data with
  | Ok (series, data') =>
      match unique series with
      | [u] => Ok ([("unit", u)], data')
      | _ => Raise AssertionError
      end
  | Raise KeyError => Ok ([], data)
  | Raise e => Raise e
  end.

(** Lines 114-118: the dict of value columns, indexed by [kind]. *)
Definition value_columns (kind : string) : result (list string) :=
  match assoc kind [("par", ["value"]);
                    ("equ", ["lvl"; "mrg"]);
                    ("var", ["lvl"; "mrg"])] with
  | Some cols => Ok cols
  | None => Raise KeyError
  end.

(** The dict comprehension of lines 135-136. *)
Fixpoint collect (ds : Dataset) (attrs : list (string * cell))
    (name : string) (cols : list string)
    : result (list (string * DataArray)) :=
  match cols with
  | [] => Ok []
  | col :: cols' =>
      let* arr := getitem_named ds col attrs name in
      let* rest := collect ds attrs name cols' in
      Ok ((col, arr) :: rest)
  end.

(** Lines 110-136, on the table left after the unit column is gone. *)
Definition to_arrays (name kind : string) (attrs : list (string * cell))
    (data : DataFrame) : result (list (string * DataArray)) :=
  let dims := map fst (columns data) in
  let* cols := value_columns kind in
  let* dims := remove_each cols dims in
  let data := if decide (length dims = 0)%nat then data
              else set_index dims data in
  let* ds := from_dataframe data in
  let* ds := match squeeze "index" ds with
             | Ok ds' => Ok ds'
             | Raise KeyError => Ok ds
             | Raise e => Raise e
             end in
  collect ds attrs name cols.

(** [quantity_as_xr(scenario, name, kind)]; [kind] is always passed here
    (Python defaults it to 'par'). *)
Definition quantity_as_xr (scenario : Scenario) (name kind : string)
    : result (list (string * DataArray)) :=
  let* method := match scenario kind with
                 | Some m => Ok m
                 | None => Raise AttributeError
                 end in
  let* data := method name in
  let* (attrs, data) := strip_unit (as_frame data) in
  to_arrays name kind attrs data.

(** A table with the columns a, b, unit and value and two rows. *)
Definition table_ab (unit1 unit2 : string) : DataFrame :=
  {| index := [];
     columns := [("a", [CStr "a1"; CStr "a2"]);
                 ("b", [CStr "b1"; CStr "b2"]);
                 ("unit", [CStr unit1; CStr unit2]);
                 ("value", [CNum 1; CNum 2])];
     nrows := 2 |}.

(** A table with one dimension column: a, unit and value, two rows. *)
Definition table_a (unit1 unit2 : string) : DataFrame :=
  {| index := [];
     columns := [("a", [CStr "a1"; CStr "a2"]);
                 ("unit", [CStr unit1; CStr unit2]);
                 ("value", [CNum 1; CNum 2])];
     nrows := 2 |}.

(** The same table without its unit column. *)
Definition table_a_values : DataFrame :=
  {| index := [];
     columns := [("a", [CStr "a1"; CStr "a2"]);
                 ("value", [CNum 1; CNum 2])];
     nrows := 2 |}.

(** The mapping expected for the quantity 'foo' read from [table_a] with
    the unit 'kg' throughout. *)
Definition foo_by_a : list (string * DataArray) :=
  [("value",
    {| da_name := "foo"; da_dims := ["a"];
       da_attrs := [("unit", CStr "kg")];
       da_values := [([CStr "a1"], CNum 1); ([CStr "a2"], CNum 2)] |})].

(** The table of two dimension columns without its unit column. *)
Definition table_ab_values : DataFrame :=
  {| index := [];
     columns := [("a", [CStr "a1"; CStr "a2"]);
                 ("b", [CStr "b1"; CStr "b2"]);
                 ("value", [CNum 1; CNum 2])];
     nrows := 2 |}.

(** A scenario with the three retrieval methods, all returning [data]. *)
Definition scenario_with (data : retrieved) : Scenario :=
  fun attr =>
    if decide (attr = "par" ∨ attr = "equ" ∨ attr = "var")
    then Some (fun _ => Ok data) else None.

(** ** Notions used to state the properties *)

(** The selector [a] as a list of booleans, and the number a list of
    booleans spells, most significant first. *)
Definition pat (w : nat) (n : N) : list bool :=
  map (fun c => truthy (int c)) (list_ascii_of_string (format_0b w n)).

Definition bits_val (bs : list bool) : nat :=
  fold_left (fun acc (b : bool) => 2 * acc + Nat.b2n b) bs 0.


(** What one yielded (key, task) pair says about the dims of [self]. *)
Definition kept_and_reduced (self : Key)
    (entry : Key * (partial_aggregate * Key)) : Prop :=
  let '(key, (task, source)) := entry in
  _name key = _name self ∧
  source = self ∧
  _dims key `sublist_of` _dims self ∧
  _dims key ≠ _dims self ∧
  dimensions task `sublist_of` _dims self ∧
  (∀ d, d ∈ _dims key → d ∉ dimensions task).

(** The reading of the spec: kept dims non-empty and proper, the task
    reducing over exactly the dims that were not kept. *)
Definition nonempty_with_complement (self : Key)
    (entry : Key * (partial_aggregate * Key)) : Prop :=
  let '(key, (task, source)) := entry in
  _dims key ≠ [] ∧
  _dims key ≠ _dims self ∧
  _dims key `sublist_of` _dims self ∧
  dimensions task = filter (fun d => d ∉ _dims key) (_dims self).

Definition foo_abc : Key := mkKey "foo" ["a"; "b"; "c"].

(** The columns of a table that are not value columns, in table order. *)
Definition dimension_columns (cols : list string) (data : DataFrame)
    : list string :=
  filter (fun c => c ∉ cols) (map fst (columns data)).

(** A Key whose canonical string can be read back without ambiguity: no
    ':' in the name, and dims that are non-empty and free of '-'. *)
Definition well_formed (k : Key) : Prop :=
  count ":" (_name k) = 0 ∧
  Forall (fun d => count "-" d = 0 ∧ d ≠ "") (_dims k).

(** * Properties *)

(** ** Worked examples *)

Example combo3 :
  combo_partition ["a"; "b"; "c"] =
  [ ([], ["a"; "b"]); (["b"], ["a"]); (["a"], ["b"]); (["a"; "b"], []);
    (["a"], ["b"; "c"]); (["a"; "c"], ["b"]); (["a"; "b"], ["c"]) ].
Proof. reflexivity. Qed.

Example repr_foo : Key_repr (mkKey "foo" ["a"; "b"]) = "foo:a-b".
Proof. reflexivity. Qed.

Example repr_empty : Key_repr (mkKey "x" []) = "x:".
Proof. reflexivity. Qed.

Example parse_foo :
  from_str_or_key (VStr "foo:a-b") = Ok (mkKey "foo" ["a"; "b"]).
Proof. reflexivity. Qed.

Example quantity_kg :
  quantity_as_xr (scenario_with (AFrame (table_a "kg" "kg"))) "foo" "par" =
  Ok foo_by_a.
Proof. vm_compute. reflexivity. Qed.

Example quantity_kg_lb :
  quantity_as_xr (scenario_with (AFrame (table_ab "kg" "lb"))) "foo" "par" =
  Raise AssertionError.
Proof. vm_compute. reflexivity. Qed.

Example quantity_scalar :
  quantity_as_xr
    (scenario_with (ADict [("value", CNum 3); ("unit", CStr "kg")]))
    "foo" "par" =
  Ok [("value",
       {| da_name := "foo"; da_dims := [];
          da_attrs := [("unit", CStr "kg")];
          da_values := [([], CNum 3)] |})].
Proof. vm_compute. reflexivity. Qed.


(** ** Bit patterns *)

Section Patterns.

Lemma selectors_pat w n : selectors w n = (pat w n, map negb (pat w n)).
Proof.
  unfold selectors, pat. f_equal.
  - by rewrite map_map.
  - rewrite !map_map. apply map_ext. intros c.
    unfold py_not, truthy. by rewrite negb_involutive.
Qed.

Lemma chars_app s t :
  list_ascii_of_string (s ++ t) =
  list_ascii_of_string s ++ list_ascii_of_string t.
Proof. induction s as [|c s IH]; simpl; [done | by rewrite IH]. Qed.

Lemma bits_val_snoc bs b :
  bits_val (bs ++ [b]) = 2 * bits_val bs + Nat.b2n b.
Proof. unfold bits_val. by rewrite fold_left_app. Qed.

Lemma fold_bits_acc bs acc :
  fold_left (fun acc (b : bool) => 2 * acc + Nat.b2n b) bs acc =
  acc * 2 ^ length bs + bits_val bs.
Proof.
  revert acc. induction bs as [|b bs IH] using rev_ind; intros acc.
  - simpl. unfold bits_val. simpl. lia.
  - rewrite bits_val_snoc, fold_left_app, length_app. simpl.
    rewrite IH, Nat.add_1_r, Nat.pow_succ_r'. lia.
Qed.

Lemma bits_val_cons b bs :
  bits_val (b :: bs) = Nat.b2n b * 2 ^ length bs + bits_val bs.
Proof. unfold bits_val at 1. simpl. by rewrite fold_bits_acc. Qed.

Lemma bits_val_app l1 l2 :
  bits_val (l1 ++ l2) = bits_val l1 * 2 ^ length l2 + bits_val l2.
Proof.
  unfold bits_val at 1. rewrite fold_left_app.
  fold (bits_val l1). apply fold_bits_acc.
Qed.


Lemma bits_val_ones n : bits_val (repeat true n) = 2 ^ n - 1.
Proof.
  induction n as [|n IH]; [done|].
  cbn [repeat]. rewrite bits_val_cons, IH, repeat_length, Nat.pow_succ_r'.
  pose proof (Nat.pow_nonzero 2 n). simpl. lia.
Qed.


(** The digits of a positive spell it back. *)
Lemma pos_digits_val p :
  bits_val (map (fun c => truthy (int c))
                (list_ascii_of_string (pos_digits p))) = Pos.to_nat p.
Proof.
  induction p as [p IH|p IH|]; cbn [pos_digits]; [| |done];
    rewrite chars_app, map_app; cbn [list_ascii_of_string map];
    rewrite bits_val_snoc, IH; simpl; lia.
Qed.

Lemma zeros_val k :
  map (fun c => truthy (int c)) (list_ascii_of_string (zeros k)) =
  repeat false k.
Proof. induction k as [|k IH]; simpl; [done | by rewrite IH]. Qed.

Lemma bits_val_zeros k : bits_val (repeat false k) = 0.
Proof.
  induction k as [|k IH]; [done|].
  cbn [repeat]. rewrite bits_val_cons, IH. simpl. lia.
Qed.

Lemma pat_unfold w n :
  pat w n =
  repeat false (w - String.length (bin n)) ++
  map (fun c => truthy (int c)) (list_ascii_of_string (bin n)).
Proof. unfold pat, format_0b. by rewrite chars_app, map_app, zeros_val. Qed.

Lemma bits_val_pat w k : bits_val (pat w (N.of_nat k)) = k.
Proof.
  rewrite pat_unfold, bits_val_app, bits_val_zeros.
  destruct k as [|k]; [done|].
  change (N.of_nat (S k)) with (Npos (Pos.of_succ_nat k)).
  cbn [bin]. rewrite pos_digits_val. lia.
Qed.

(** A pattern that starts with a one is printed back as it is, provided
    the padding width does not exceed its length. *)
Lemma pos_of_bits (t : list bool) :
  ∃ p, map (fun c => truthy (int c))
           (list_ascii_of_string (pos_digits p)) = true :: t
       ∧ Pos.to_nat p = bits_val (true :: t).
Proof.
  induction t as [|b t [p [Hd Hv]]] using rev_ind.
  - by exists xH.
  - exists (if b then xI p else xO p).
    rewrite app_comm_cons, bits_val_snoc, <- Hv.
    destruct b; simpl; rewrite chars_app, map_app, Hd; simpl;
      (split; [done | lia]).
Qed.

Lemma chars_length s : length (list_ascii_of_string s) = String.length s.
Proof. induction s as [|c s IH]; simpl; [done | by rewrite IH]. Qed.

Lemma pat_of_bits (w : nat) (t : list bool) :
  (w ≤ S (length t))%nat → pat w (N.of_nat (bits_val (true :: t))) = true :: t.
Proof.
  intros Hw. destruct (pos_of_bits t) as [p [Hd Hv]].
  rewrite <- Hv, positive_nat_N, pat_unfold. cbn [bin].
  assert (String.length (pos_digits p) = S (length t)) as ->.
  { by rewrite <- chars_length,
      <- (length_map (fun c => truthy (int c))), Hd. }
  replace (w - S (length t)) with 0 by lia. by rewrite Hd.
Qed.

End Patterns.

(** ** combo_partition *)

Section ComboPartition.
Context {A : Type}.
Implicit Types (S : list A) (sel : list bool).

Lemma compress_sublist S sel : compress S sel `sublist_of` S.
Proof.
  revert sel. induction S as [|x S IH]; intros [|[] sel]; simpl;
    try apply sublist_nil_l; by constructor.
Qed.

Lemma compress_length S sel : (length (compress S sel) ≤ length S)%nat.
Proof. apply sublist_length, compress_sublist. Qed.

(** Only a selector that starts with [length S] ones keeps all of [S]. *)
Lemma compress_all S sel :
  compress S sel = S → ∃ rest, sel = repeat true (length S) ++ rest.
Proof.
  revert sel. induction S as [|x S IH]; intros sel HS.
  - by exists sel.
  - destruct sel as [|[] sel]; simpl in HS; [done| |].
    + injection HS as HS. destruct (IH _ HS) as [rest ->]. by exists rest.
    + pose proof (compress_length S sel) as Hlen.
      rewrite HS in Hlen. simpl in Hlen. lia.
Qed.

(** With distinct elements, the two sides of a yielded pair share none. *)
Lemma compress_disjoint S sel x :
  NoDup S → x ∈ compress S sel → x ∉ compress S (map negb sel).
Proof.
  intros Hnd. revert sel. induction Hnd as [|y S Hy Hnd IH]; intros sel Hin.
  - simpl in Hin. by apply elem_of_nil in Hin.
  - destruct sel as [|[] sel]; simpl in *; [by apply elem_of_nil in Hin| |].
    + apply elem_of_cons in Hin as [->|Hin]; [|by apply IH].
      intros Hx. apply Hy. eapply elem_of_sublist; [exact Hx|].
      apply compress_sublist.
    + apply not_elem_of_cons. split; [|by apply IH].
      intros ->. apply Hy. eapply elem_of_sublist; [exact Hin|].
      apply compress_sublist.
Qed.

(** What the generator yields: one pair per pattern number below
    [2 ** len(S) - 1], rendered at width [ceil(sqrt(len(S)))]. *)
Lemma combo_partition_In S X Y :
  In (X, Y) (combo_partition S) ↔
  ∃ k, (k < 2 ^ length S - 1)%nat ∧
       X = compress S (pat (ceil_sqrt (length S)) (N.of_nat k)) ∧
       Y = compress S (map negb (pat (ceil_sqrt (length S)) (N.of_nat k))).
Proof.
  unfold combo_partition, range. rewrite in_map_iff. split.
  - intros [n [Heq Hn]]. apply in_map_iff in Hn as [k [<- Hk]].
    apply in_seq in Hk. rewrite selectors_pat in Heq.
    exists k. split; [lia|]. by injection Heq as <- <-.
  - intros [k [Hk [-> ->]]]. exists (N.of_nat k). split.
    + by rewrite selectors_pat.
    + apply in_map, in_seq. lia.
Qed.

(** The pair at position [k] is the one of pattern number [k]. *)
Lemma combo_partition_lookup S k :
  combo_partition S !! k =
  if decide (k < 2 ^ length S - 1)%nat
  then Some (compress S (pat (ceil_sqrt (length S)) (N.of_nat k)),
             compress S (map negb (pat (ceil_sqrt (length S)) (N.of_nat k))))
  else None.
Proof.
  unfold combo_partition, range. rewrite map_map.
  change (map ?f ?l) with (f <$> l). rewrite list_lookup_fmap.
  case_decide as Hk.
  - rewrite lookup_seq_lt by done. cbn [fmap option_fmap option_map].
    by rewrite Nat.add_0_l, selectors_pat.
  - rewrite lookup_seq_ge by lia. done.
Qed.

Lemma combo_partition_length S :
  length (combo_partition S) = 2 ^ length S - 1.
Proof.
  unfold combo_partition, range. by rewrite !length_map, length_seq.
Qed.

(** No pattern in range keeps the whole of [S] on the left. *)
Lemma combo_partition_proper S X Y : In (X, Y) (combo_partition S) → X ≠ S.
Proof.
  intros Hin HX. apply combo_partition_In in Hin as [k [Hk [Ha _]]].
  rewrite HX in Ha. symmetry in Ha.
  apply compress_all in Ha as [rest Hpat].
  pose proof (bits_val_pat (ceil_sqrt (length S)) k) as Hv.
  rewrite Hpat, bits_val_app, bits_val_ones in Hv.
  pose proof (Nat.pow_nonzero 2 (length rest)). nia.
Qed.

Lemma combo_partition_sublists S X Y :
  In (X, Y) (combo_partition S) → X `sublist_of` S ∧ Y `sublist_of` S.
Proof.
  intros Hin. apply combo_partition_In in Hin as [k [_ [-> ->]]].
  split; apply compress_sublist.
Qed.

Lemma combo_partition_disjoint S X Y x :
  NoDup S → In (X, Y) (combo_partition S) → x ∈ X → x ∉ Y.
Proof.
  intros Hnd Hin. apply combo_partition_In in Hin as [k [_ [-> ->]]].
  by apply compress_disjoint.
Qed.

End ComboPartition.

Lemma ceil_sqrt_le n : (ceil_sqrt n ≤ n)%nat.
Proof.
  unfold ceil_sqrt. destruct (Nat.eqb_spec (Nat.sqrt n * Nat.sqrt n) n) as [_|Hne].
  - apply Nat.sqrt_le_lin.
  - destruct n as [|[|n]]; [done|done|].
    apply Nat.sqrt_lt_lin. lia.
Qed.

(** C1: on the three-element list ['a','b','c'] the generator's first pair
    is ([], ['a','b']): the pattern '00' is two characters long, so 'c' is
    offered to neither list and the pair does not partition the input. *)
Theorem combo_partition_drops_trailing :
  head (combo_partition ["a"; "b"; "c"]) = Some ([], ["a"; "b"]) ∧
  "c" ∉ ([] : list string) ++ ["a"; "b"].
Proof.
  split; [reflexivity|].
  intros Hin. apply list_elem_of_In in Hin. simpl in Hin.
  destruct Hin as [Heq|[Heq|[]]]; discriminate Heq.
Qed.



(** ** split and join *)

Section SplitJoin.
Variable sep : ascii.

Lemma split_nonempty s : split sep s ≠ [].
Proof.
  destruct s as [|c s]; simpl; [done|].
  destruct (Ascii.eqb c sep); [done|]. by destruct (split sep s).
Qed.

Lemma split_length s : length (split sep s) = S (count sep s).
Proof.
  induction s as [|c s IH]; simpl; [done|].
  destruct (Ascii.eqb c sep); simpl; [by rewrite IH|].
  pose proof (split_nonempty s). destruct (split sep s); [done|].
  exact IH.
Qed.

Lemma join_split s : join (String sep "") (split sep s) = s.
Proof.
  unfold join. induction s as [|c s IH]; simpl; [done|].
  destruct (Ascii.eqb_spec c sep) as [->|Hne].
  - pose proof (split_nonempty s).
    destruct (split sep s) as [|p ps]; [done|]. simpl in *. by rewrite IH.
  - pose proof (split_nonempty s).
    destruct (split sep s) as [|p ps]; [done|].
    destruct ps; simpl in *; by rewrite <- IH.
Qed.

Lemma count_app s t : count sep (s ++ t) = count sep s + count sep t.
Proof. induction s as [|c s IH]; simpl; [done|]. rewrite IH. lia. Qed.

Lemma split_none s : count sep s = 0 → split sep s = [s].
Proof.
  induction s as [|c s IH]; simpl; [done|].
  destruct (Ascii.eqb c sep); simpl; [done|]. intros H0. by rewrite IH.
Qed.

Lemma split_app s t :
  count sep s = 0 → split sep (s ++ String sep t) = s :: split sep t.
Proof.
  induction s as [|c s IH]; simpl.
  - by rewrite Ascii.eqb_refl.
  - destruct (Ascii.eqb c sep); simpl; [done|]. intros H0. by rewrite IH.
Qed.

(** A string with exactly one separator is cut into the part before it
    and the part after it. *)
Lemma split_one s :
  count sep s = 1 →
  ∃ l r : string, s = (l ++ String sep r)%string ∧ count sep l = 0 ∧ count sep r = 0
         ∧ split sep s = [l; r].
Proof.
  induction s as [|c s IH]; simpl; [done|].
  destruct (Ascii.eqb_spec c sep) as [->|Hne]; simpl; intros H1.
  - exists "", s. assert (count sep s = 0) as H0 by lia.
    by rewrite (split_none s H0).
  - destruct (IH H1) as (l & r & -> & Hl & Hr & Hs).
    exists (String c l), r. rewrite Hs. simpl.
    destruct (Ascii.eqb_spec c sep); [done|]. by rewrite Hl.
Qed.

End SplitJoin.

Lemma count_join sep c pieces :
  count c sep = 0 → Forall (fun d => count c d = 0) pieces →
  count c (join sep pieces) = 0.
Proof.
  intros Hsep Hall. unfold join.
  induction Hall as [|d ds Hd Hds IH]; simpl; [done|].
  destruct ds; [done|]. rewrite !count_app, Hd, Hsep, IH. done.
Qed.

Lemma Key_repr_unfold k :
  Key_repr k = (_name k ++ ":" ++ join "-" (_dims k))%string.
Proof. reflexivity. Qed.

(** ** Key *)

(** C4 (as stated, refuted): the Key named 'a:b' prints as 'a:b:', which
    the parser rejects. *)
Lemma from_str_or_key_repr_fails :
  from_str_or_key (VStr (Key_repr (mkKey "a:b" []))) = Raise ValueError ∧
  ¬ ∃ k', from_str_or_key (VStr (Key_repr (mkKey "a:b" []))) = Ok k' ∧
          Key_eq k' (VKey (mkKey "a:b" [])) = true.
Proof.
  split; [reflexivity|]. intros [k' [Hparse _]]. discriminate Hparse.
Qed.

(** C4 (amended): for every Key whose name and dims contain no ':',
    parsing the canonical string returns a Key that compares equal to the
    original (in both directions) and has the same canonical string. *)
Theorem from_str_or_key_repr k :
  count ":" (_name k) = 0 →
  Forall (fun d => count ":" d = 0) (_dims k) →
  ∃ k', from_str_or_key (VStr (Key_repr k)) = Ok k' ∧
        Key_eq k' (VKey k) = true ∧ Key_eq k (VKey k') = true ∧
        Key_repr k' = Key_repr k.
Proof.
  intros Hname Hdims.
  assert (count ":" (join "-" (_dims k)) = 0) as Hj
    by (by apply count_join).
  exists (mkKey (_name k) (split "-" (join "-" (_dims k)))).
  assert (Key_repr (mkKey (_name k) (split "-" (join "-" (_dims k))))
          = Key_repr k) as Hrepr.
  { rewrite !Key_repr_unfold. cbn [_name _dims]. by rewrite join_split. }
  split; [|split; [|split]].
  - rewrite Key_repr_unfold. cbn [from_str_or_key].
    change (_name k ++ ":" ++ join "-" (_dims k))%string
      with (_name k ++ String ":" (join "-" (_dims k)))%string.
    rewrite split_app by done. by rewrite split_none.
  - unfold Key_eq, str_eq. rewrite Hrepr. apply String.eqb_refl.
  - unfold Key_eq, str_eq. rewrite Hrepr. apply String.eqb_refl.
  - exact Hrepr.
Qed.

Lemma from_str_or_key_repr_witness :
  ∃ k', from_str_or_key (VStr (Key_repr (mkKey "foo" ["a"; "b"]))) = Ok k' ∧
        Key_eq k' (VKey (mkKey "foo" ["a"; "b"])) = true ∧
        Key_eq (mkKey "foo" ["a"; "b"]) (VKey k') = true ∧
        Key_repr k' = Key_repr (mkKey "foo" ["a"; "b"]).
Proof.
  apply (from_str_or_key_repr (mkKey "foo" ["a"; "b"])).
  - reflexivity.
  - repeat constructor.
Defined.

(** C5 (as stated, refuted): 'a:b:c' contains a ':' and is rejected all
    the same; it is not cut at its first ':' into 'a' and 'b:c'. *)
Lemma from_str_or_key_two_colons :
  ¬ (from_str_or_key (VStr "a:b:c") = Raise ValueError ↔
     count ":" "a:b:c" = 0).
Proof. intros [Hfail _]. specialize (Hfail eq_refl). discriminate Hfail. Qed.

(** C5 (amended): on a string with exactly one ':' the part before it is
    the name and the part after it, split on '-', is the dims list; on
    every other string (no ':' or more than one) the parser raises
    ValueError. *)
Theorem from_str_or_key_str s :
  (count ":" s = 1 →
   ∃ name dims : string,
     s = (name ++ ":" ++ dims)%string ∧
     count ":" name = 0 ∧ count ":" dims = 0 ∧
     from_str_or_key (VStr s) = Ok (mkKey name (split "-" dims))) ∧
  (count ":" s ≠ 1 ↔ from_str_or_key (VStr s) = Raise ValueError).
Proof.
  split.
  - intros H1. destruct (split_one ":" s H1) as (l & r & -> & Hl & Hr & Hs).
    exists l, r. repeat split; try done. cbn [from_str_or_key]. by rewrite Hs.
  - pose proof (split_length ":" s) as Hlen. cbn [from_str_or_key].
    destruct (split ":" s) as [|p [|q [|q' ps]]]; simpl in Hlen;
      (split; [intros; try done; lia | intros; try done; lia]).
Qed.

(** C6: a Key equals a plain string, compared from either side, exactly
    when the string is its canonical form name:dim1-dim2-..., its hash is
    the string hash of that form, and Keys that compare equal hash
    alike. *)
Theorem Key_eq_hash_canonical (str_hash : string → Z) (k : Key) (s : string) :
  Key_repr k = (_name k ++ ":" ++ String.concat "-" (_dims k))%string ∧
  (Key_eq k (VStr s) = true ↔ s = Key_repr k) ∧
  (str_eq s (VKey k) = true ↔ s = Key_repr k) ∧
  Key_hash str_hash k = str_hash (Key_repr k) ∧
  (∀ k', Key_eq k (VKey k') = true → Key_hash str_hash k = Key_hash str_hash k').
Proof.
  split; [reflexivity|]. split; [|split; [|split; [reflexivity|]]].
  - unfold Key_eq, str_eq. rewrite String.eqb_eq. split; congruence.
  - unfold str_eq. rewrite String.eqb_eq. split; congruence.
  - intros k'. unfold Key_eq, str_eq, Key_hash. rewrite String.eqb_eq.
    by intros ->.
Qed.

(** C10: Key('a', ['b-c']) and Key('a', ['b', 'c']) differ in their dims
    and both print as 'a:b-c', so they compare equal and hash alike; in
    general any two Keys with the same canonical string do. *)
Theorem Key_collision :
  mkKey "a" ["b-c"] ≠ mkKey "a" ["b"; "c"] ∧
  Key_repr (mkKey "a" ["b-c"]) = "a:b-c" ∧
  Key_repr (mkKey "a" ["b"; "c"]) = "a:b-c" ∧
  Key_eq (mkKey "a" ["b-c"]) (VKey (mkKey "a" ["b"; "c"])) = true ∧
  Key_eq (mkKey "a" ["b"; "c"]) (VKey (mkKey "a" ["b-c"])) = true ∧
  (∀ str_hash k1 k2,
      Key_repr k1 = Key_repr k2 →
      Key_eq k1 (VKey k2) = true ∧
      Key_hash str_hash k1 = Key_hash str_hash k2).
Proof.
  do 5 (split; [first [reflexivity | discriminate]|]).
  intros str_hash k1 k2 Hrepr. split.
  - unfold Key_eq, str_eq. rewrite Hrepr. apply String.eqb_refl.
  - unfold Key_hash. by rewrite Hrepr.
Qed.

(** ** aggregates *)

Lemma aggregates_kept_and_reduced self entry :
  NoDup (_dims self) → In entry (aggregates self) → kept_and_reduced self entry.
Proof.
  intros Hnd Hin. unfold aggregates in Hin.
  apply in_map_iff in Hin as [[X Y] [<- Hin]]. cbn.
  pose proof (combo_partition_sublists _ _ _ Hin) as [HX HY].
  repeat split; try done.
  - by eapply combo_partition_proper.
  - intros d. by eapply combo_partition_disjoint.
Qed.

(** C3 (as stated, refuted): the first pair aggregates() yields for
    Key('foo', ['a','b','c']) has a Key with no dims at all. *)
Lemma aggregates_yields_empty_dims :
  ¬ Forall (nonempty_with_complement foo_abc) (aggregates foo_abc).
Proof.
  intros Hall. apply Forall_inv in Hall. by destruct Hall as [Hne _].
Qed.

(** C3 (amended): every pair aggregates() yields for
    Key('foo', ['a','b','c']) has a Key named 'foo' whose dims are a
    proper, possibly empty, order-preserving sub-list of ['a','b','c']
    (the first one yielded has none), paired with a task on the original
    Key whose dimensions are an order-preserving sub-list of
    ['a','b','c'] sharing no dim with the kept ones. *)
Theorem aggregates_foo_abc :
  Forall (kept_and_reduced foo_abc) (aggregates foo_abc) ∧
  length (aggregates foo_abc) = 7 ∧
  fst <$> head (aggregates foo_abc) = Some (mkKey "foo" []).
Proof.
  split; [|split; reflexivity].
  apply Forall_forall. intros entry Hin.
  apply aggregates_kept_and_reduced; [|by apply list_elem_of_In].
  unfold foo_abc. cbn [_dims].
  apply (bool_decide_unpack _). by vm_compute.
Qed.

(** ** Reasoning about raised and returned results *)

Lemma bind_Ok {A B} (r : result A) (k : A → result B) b :
  bind r k = Ok b → ∃ a, r = Ok a ∧ k a = Ok b.
Proof. destruct r as [a|e]; simpl; [by exists a | done]. Qed.

Ltac bind_inv H :=
  let a := fresh "a" in
  let Ha := fresh "H" a in
  apply bind_Ok in H as (a & Ha & H).

Lemma collect_keys ds attrs name cols r :
  collect ds attrs name cols = Ok r → map fst r = cols.
Proof.
  revert r. induction cols as [|col cols IH]; simpl; intros r Hr.
  - by injection Hr as <-.
  - bind_inv Hr. bind_inv Hr. injection Hr as <-. simpl. f_equal. by apply IH.
Qed.

Lemma collect_arrays ds attrs name cols r :
  collect ds attrs name cols = Ok r →
  Forall (fun '(col, arr) =>
            da_name arr = name ∧ da_attrs arr = attrs ∧
            da_dims arr = map fst (sizes ds)) r.
Proof.
  revert r. induction cols as [|col cols IH]; simpl; intros r Hr.
  - injection Hr as <-. constructor.
  - bind_inv Hr. bind_inv Hr. injection Hr as <-. constructor; [|by apply IH].
    unfold getitem_named in Ha. destruct (assoc col (data_vars ds)); [|done].
    by injection Ha as <-.
Qed.

Lemma value_columns_Ok kind cols :
  value_columns kind = Ok cols →
  (kind = "par" ∧ cols = ["value"]) ∨
  ((kind = "equ" ∨ kind = "var") ∧ cols = ["lvl"; "mrg"]).
Proof.
  unfold value_columns. simpl.
  repeat case_decide; intros Hc; try discriminate Hc;
    injection Hc as <-; subst; auto.
Qed.

Lemma to_arrays_keys name kind attrs data r :
  to_arrays name kind attrs data = Ok r →
  ∃ cols, value_columns kind = Ok cols ∧ map fst r = cols.
Proof.
  unfold to_arrays. intros Hr. bind_inv Hr. exists a. split; [done|].
  do 3 bind_inv Hr. by eapply collect_keys.
Qed.

(** C7 (as stated, refuted): the kind tag 'parameter' is not accepted,
    even by a scenario that answers every attribute, and the columns of
    an equation are not called 'level' and 'margin'. *)
Lemma quantity_as_xr_rejects_parameter :
  quantity_as_xr (fun _ => Some (fun _ => Ok (ADict [("value", CNum 3)])))
                 "foo" "parameter" = Raise KeyError ∧
  value_columns "equation" = Raise KeyError ∧
  value_columns "equ" ≠ Ok ["level"; "margin"].
Proof. split; [|split]; [reflexivity|reflexivity|discriminate]. Qed.

(** C7 (amended): quantity_as_xr returns only for the kind tags 'par',
    'equ' and 'var', and the mapping it returns is keyed by the kind's
    value columns: 'par' by ['value'], 'equ' and 'var' by
    ['lvl', 'mrg']. *)
Theorem quantity_as_xr_keys scenario name kind r :
  quantity_as_xr scenario name kind = Ok r →
  (kind = "par" ∧ map fst r = ["value"]) ∨
  ((kind = "equ" ∨ kind = "var") ∧ map fst r = ["lvl"; "mrg"]).
Proof.
  unfold quantity_as_xr. intros Hr. do 3 bind_inv Hr.
  destruct a1 as [attrs data].
  apply to_arrays_keys in Hr as (cols & Hcols & ->).
  by apply value_columns_Ok.
Qed.

Lemma quantity_as_xr_keys_witness :
  quantity_as_xr
    (scenario_with (ADict [("lvl", CNum 3); ("mrg", CNum 0)])) "foo" "equ" =
  Ok [("lvl", {| da_name := "foo"; da_dims := []; da_attrs := [];
                 da_values := [([], CNum 3)] |});
      ("mrg", {| da_name := "foo"; da_dims := []; da_attrs := [];
                 da_values := [([], CNum 0)] |})] ∧
  (("equ" = "par" ∧ ["lvl"; "mrg"] = ["value"]) ∨
   (("equ" = "equ" ∨ "equ" = "var") ∧ ["lvl"; "mrg"] = ["lvl"; "mrg"])).
Proof.
  split; [reflexivity|].
  exact (quantity_as_xr_keys
           (scenario_with (ADict [("lvl", CNum 3); ("mrg", CNum 0)]))
           "foo" "equ" _ eq_refl).
Defined.

(** ** The unit column *)

(** The arrays built from a table carry the name and the attributes they
    are given. *)
Lemma to_arrays_arrays name kind attrs data r :
  to_arrays name kind attrs data = Ok r →
  Forall (fun '(col, arr) => da_name arr = name ∧ da_attrs arr = attrs) r.
Proof.
  unfold to_arrays. intros Hr. do 4 bind_inv Hr.
  apply collect_arrays in Hr. eapply Forall_impl; [exact Hr|].
  by intros [col arr] (Hn & Hat & _).
Qed.

Lemma assoc_filter_ne {V} key (items : list (string * V)) :
  key ∉ map fst (filter (fun c => c.1 ≠ key) items).
Proof.
  intros Hin. apply list_elem_of_fmap in Hin as ([k v] & -> & Hin).
  by apply list_elem_of_filter in Hin as [Hne _].
Qed.

(** C8: when the retrieved table has a 'unit' column, two or more
    distinct values in it make quantity_as_xr raise AssertionError, which
    nothing catches; exactly one distinct value is popped off the table
    with its column and becomes the 'unit' attribute of every array
    returned, and the mapping returned has one array for each value
    column of the kind, so at least one. *)
Theorem quantity_as_xr_unit scenario name kind method data units :
  scenario kind = Some method →
  method name = Ok data →
  assoc "unit" (columns (as_frame data)) = Some units →
  ((2 ≤ length (unique units))%nat →
   quantity_as_xr scenario name kind = Raise AssertionError) ∧
  (∀ u, unique units = [u] →
     ∃ data',
       pop "unit" (as_frame data) = Ok (units, data') ∧
       ("unit" ∉ map fst (columns data')) ∧
       quantity_as_xr scenario name kind =
         to_arrays name kind [("unit", u)] data' ∧
       ∀ r, quantity_as_xr scenario name kind = Ok r →
            (∃ cols, value_columns kind = Ok cols ∧ cols ≠ [] ∧
                     map fst r = cols) ∧
            Forall (fun '(col, arr) =>
                      da_name arr = name ∧
                      da_attrs arr = [("unit", u)]) r).
Proof.
  intros Hget Hcall Hunit.
  assert (quantity_as_xr scenario name kind =
          bind (strip_unit (as_frame data))
               (fun '(attrs, data0) => to_arrays name kind attrs data0)) as Hq.
  { unfold quantity_as_xr. by rewrite Hget; cbn [bind]; rewrite Hcall. }
  unfold strip_unit, pop in Hq. rewrite Hunit in Hq. split.
  - intros Hlen. rewrite Hq.
    destruct (unique units) as [|u [|u' us]]; simpl in Hlen; [lia|lia|done].
  - intros u Hu. rewrite Hu in Hq. cbn [bind] in Hq.
    eexists. split; [unfold pop; by rewrite Hunit|].
    split; [apply assoc_filter_ne|]. split; [exact Hq|].
    intros r Hr. rewrite Hq in Hr. split; [|by apply to_arrays_arrays in Hr].
    apply to_arrays_keys in Hr as (cols & Hcols & Hkeys).
    exists cols. split; [done|]. split; [|done].
    by apply value_columns_Ok in Hcols as [[_ ->]|[_ ->]].
Qed.

Lemma quantity_as_xr_unit_witness :
  quantity_as_xr (scenario_with (AFrame (table_ab "kg" "lb"))) "foo" "par" =
    Raise AssertionError ∧
  quantity_as_xr (scenario_with (AFrame (table_a "kg" "kg"))) "foo" "par" =
    Ok foo_by_a ∧
  (∃ cols, value_columns "par" = Ok cols ∧ cols ≠ [] ∧
           map fst foo_by_a = cols) ∧
  Forall (fun '(col, arr) =>
            da_name arr = "foo" ∧ da_attrs arr = [("unit", CStr "kg")])
         foo_by_a.
Proof.
  split; [|split; [reflexivity|]].
  - apply (quantity_as_xr_unit
             (scenario_with (AFrame (table_ab "kg" "lb"))) "foo" "par"
             (fun _ => Ok (AFrame (table_ab "kg" "lb"))) _
             [CStr "kg"; CStr "lb"] eq_refl eq_refl eq_refl).
    vm_compute. constructor.
  - destruct (proj2 (quantity_as_xr_unit
             (scenario_with (AFrame (table_a "kg" "kg"))) "foo" "par"
             (fun _ => Ok (AFrame (table_a "kg" "kg"))) _
             [CStr "kg"; CStr "kg"] eq_refl eq_refl eq_refl)
             (CStr "kg") eq_refl) as (data' & _ & _ & _ & Hall).
    exact (Hall foo_by_a eq_refl).
Defined.

(** ** Scalars *)

(** Membership of a key that is written out in the list. *)
Ltac key_here :=
  solve [repeat first [apply list_elem_of_here | apply list_elem_of_further]].

(** A list that visibly repeats a key is not duplicate-free. *)
Ltac nodup_clash :=
  repeat match goal with
         | H : NoDup (_ :: _) |- _ =>
             let Hni := fresh "Hni" in apply NoDup_cons in H as [Hni H]
         end;
  match goal with
  | Hni : _ ∉ _ |- _ => exfalso; apply Hni; key_here
  end.

(** C9: a scalar record of a parameter, a dict with the key 'value' and
    possibly 'unit' and nothing else, is wrapped as a one-row table and
    comes back as one array under 'value' that has no dimension left
    (the placeholder 'index' of length one is squeezed away), holds the
    value, and carries the unit if there is one. *)
Theorem quantity_as_xr_scalar scenario name method record v :
  scenario "par" = Some method →
  method name = Ok (ADict record) →
  NoDup (map fst record) →
  (∀ key, key ∈ map fst record → key = "value" ∨ key = "unit") →
  assoc "value" record = Some v →
  nrows (as_frame (ADict record)) = 1%nat ∧
  quantity_as_xr scenario name "par" =
  Ok [("value",
       {| da_name := name;
          da_dims := [];
          da_attrs := match assoc "unit" record with
                      | Some u => [("unit", u)]
                      | None => []
                      end;
          da_values := [([], v)] |})].
Proof.
  intros Hget Hcall Hnd Hkeys Hv. split; [reflexivity|].
  unfold quantity_as_xr. rewrite Hget. cbn [bind]. rewrite Hcall. cbn [bind].
  destruct record as [|[k1 c1] [|[k2 c2] [|[k3 c3] record]]];
    cbn [map fst] in Hkeys, Hnd.
  - discriminate Hv.
  - destruct (Hkeys k1) as [->| ->]; [key_here| |discriminate Hv].
    injection Hv as ->. reflexivity.
  - destruct (Hkeys k1) as [->| ->]; [key_here| |];
      (destruct (Hkeys k2) as [->| ->]; [key_here| |]);
      try nodup_clash; injection Hv as ->; reflexivity.
  - destruct (Hkeys k1) as [->| ->]; [key_here| |];
      (destruct (Hkeys k2) as [->| ->]; [key_here| |]);
      (destruct (Hkeys k3) as [->| ->]; [key_here| |]);
      nodup_clash.
Qed.

Lemma quantity_as_xr_scalar_witness :
  quantity_as_xr
    (scenario_with (ADict [("value", CNum 3); ("unit", CStr "kg")]))
    "foo" "par" =
  Ok [("value",
       {| da_name := "foo"; da_dims := [];
          da_attrs := [("unit", CStr "kg")];
          da_values := [([], CNum 3)] |})].
Proof.
  apply (quantity_as_xr_scalar
           (scenario_with (ADict [("value", CNum 3); ("unit", CStr "kg")]))
           "foo" (fun _ => Ok (ADict [("value", CNum 3); ("unit", CStr "kg")]))
           [("value", CNum 3); ("unit", CStr "kg")] (CNum 3)
           eq_refl eq_refl).
  - apply (bool_decide_unpack _). by vm_compute.
  - intros key Hin. simpl in Hin.
    apply elem_of_cons in Hin as [->|Hin]; [by left|].
    apply elem_of_cons in Hin as [->|Hin]; [by right|].
    by apply elem_of_nil in Hin.
  - reflexivity.
Defined.

(** ** Further properties of the enumerator and of Key *)

Lemma compress_take {A} (S : list A) (sel : list bool) :
  compress S sel ++ compress S (map negb sel) ≡ₚ take (length sel) S.
Proof.
  revert sel. induction S as [|x S IH]; intros [|[] sel]; simpl; try done.
  - by rewrite IH.
  - by rewrite <- Permutation_middle, IH.
Qed.


(** A Key without dims has no aggregates. *)
Theorem aggregates_no_dims name : aggregates (mkKey name []) = [].
Proof. reflexivity. Qed.

(** Parsing a Key gives back a copy of it: the same name and dims, equal
    to the original. *)
Theorem from_str_or_key_key k :
  from_str_or_key (VKey k) = Ok k ∧ Key_eq k (VKey k) = true.
Proof.
  split; [reflexivity|]. unfold Key_eq, str_eq. apply String.eqb_refl.
Qed.

(** ** More on split and join *)

Section SplitJoinMore.
Variable sep : ascii.

Lemma split_pieces s : Forall (fun p => count sep p = 0) (split sep s).
Proof.
  induction s as [|c s IH]; simpl; [by repeat constructor|].
  destruct (Ascii.eqb_spec c sep) as [->|Hne]; [by constructor|].
  pose proof (split_nonempty sep s) as Hs.
  destruct (split sep s) as [|p ps]; [done|].
  apply Forall_cons in IH as [Hp Hps]. constructor; [|done].
  simpl. by destruct (Ascii.eqb_spec c sep).
Qed.

(** Cutting at [sep] does not create occurrences of another character. *)
Lemma split_other c s :
  count c s = 0 → Forall (fun p => count c p = 0) (split sep s).
Proof.
  induction s as [|x s IH]; simpl; [by repeat constructor|].
  intros Hc.
  assert ((if Ascii.eqb x c then 1 else 0) = 0 ∧ count c s = 0)%nat
    as [Hx Hs] by lia.
  specialize (IH Hs). destruct (Ascii.eqb x sep); [by constructor|].
  pose proof (split_nonempty sep s) as Hne.
  destruct (split sep s) as [|p ps]; [done|].
  apply Forall_cons in IH as [Hp Hps]. constructor; [|done].
  simpl. by rewrite Hx, Hp.
Qed.

Lemma split_join ds :
  ds ≠ [] → Forall (fun d => count sep d = 0) ds →
  split sep (join (String sep "") ds) = ds.
Proof.
  intros Hne Hall. unfold join.
  induction Hall as [|d ds Hd Hds IH]; [done|].
  destruct ds as [|d' ds].
  - simpl. by apply split_none.
  - change (String.concat (String sep "") (d :: d' :: ds))
      with (d ++ String sep (String.concat (String sep "") (d' :: ds)))%string.
    rewrite split_app by done. f_equal. by apply IH.
Qed.

(** Two strings cut at their first [sep] agree piece by piece. *)
Lemma app_sep_inj (l1 l2 r1 r2 : string) :
  count sep l1 = 0 → count sep l2 = 0 →
  (l1 ++ String sep r1)%string = (l2 ++ String sep r2)%string →
  l1 = l2 ∧ r1 = r2.
Proof.
  revert l2. induction l1 as [|c l1 IH]; intros [|c' l2]; simpl.
  - intros _ _ Heq. by injection Heq as ->.
  - destruct (Ascii.eqb_spec c' sep) as [->|Hne]; [done|].
    intros _ _ Heq. injection Heq as <-. done.
  - destruct (Ascii.eqb_spec c sep) as [->|Hne]; [done|].
    intros _ _ Heq. injection Heq as ->. done.
  - destruct (Ascii.eqb c sep), (Ascii.eqb c' sep); try done.
    intros H1 H2 Heq. injection Heq as -> Heq.
    destruct (IH _ H1 H2 Heq) as [-> ->]. done.
Qed.

Lemma join_nonempty d ds : d ≠ "" → join (String sep "") (d :: ds) ≠ "".
Proof.
  unfold join. destruct d as [|c d]; [done|]. intros _.
  destruct ds; simpl; done.
Qed.

Lemma join_inj ds1 ds2 :
  Forall (fun d => count sep d = 0 ∧ d ≠ "") ds1 →
  Forall (fun d => count sep d = 0 ∧ d ≠ "") ds2 →
  join (String sep "") ds1 = join (String sep "") ds2 → ds1 = ds2.
Proof.
  intros H1 H2 Heq.
  destruct ds1 as [|d1 ds1], ds2 as [|d2 ds2]; [done| | |].
  - apply Forall_cons in H2 as [[_ Hd] _]. symmetry in Heq.
    by apply join_nonempty in Heq.
  - apply Forall_cons in H1 as [[_ Hd] _]. by apply join_nonempty in Heq.
  - rewrite <- (split_join (d1 :: ds1)), <- (split_join (d2 :: ds2)), Heq;
      [done|done| |done|]; eapply Forall_impl; eauto; by intros ? [].
Qed.

End SplitJoinMore.

(** ** Key: printing, parsing and equality together *)

Lemma Key_repr_inj k1 k2 :
  well_formed k1 → well_formed k2 → Key_repr k1 = Key_repr k2 → k1 = k2.
Proof.
  intros [Hn1 Hd1] [Hn2 Hd2]. rewrite !Key_repr_unfold.
  destruct k1 as [n1 d1], k2 as [n2 d2]. cbn [_name _dims] in *.
  intros Heq. apply app_sep_inj in Heq as [-> Heq]; [|done|done].
  apply join_inj in Heq as ->; done.
Qed.

(** X2: whenever from_str_or_key accepts a string, the Key it returns
    prints back as that string; its name has no ':', it has at least one
    dim (possibly the empty string), and no dim contains '-' or ':'. *)
Theorem from_str_or_key_prints_back s k :
  from_str_or_key (VStr s) = Ok k →
  Key_repr k = s ∧
  count ":" (_name k) = 0 ∧
  _dims k ≠ [] ∧
  Forall (fun d => count "-" d = 0 ∧ count ":" d = 0) (_dims k).
Proof.
  cbn [from_str_or_key]. intros Hparse.
  pose proof (split_length ":" s) as Hlen.
  destruct (split ":" s) as [|name [|dims [|more pieces]]] eqn:Hs;
    try discriminate Hparse.
  injection Hparse as <-. simpl in Hlen.
  destruct (split_one ":" s) as (l & r & -> & Hl & Hr & Hs'); [lia|].
  rewrite Hs in Hs'. injection Hs' as -> ->.
  rewrite Key_repr_unfold. cbn [_name _dims].
  split; [by rewrite join_split|]. split; [done|].
  split; [apply split_nonempty|].
  apply Forall_and. split; [apply split_pieces | by apply split_other].
Qed.

Lemma from_str_or_key_prints_back_witness :
  Key_repr (mkKey "foo" ["a"; "b"]) = "foo:a-b" ∧
  count ":" "foo" = 0 ∧
  ["a"; "b"] ≠ [] ∧
  Forall (fun d => count "-" d = 0 ∧ count ":" d = 0) ["a"; "b"].
Proof.
  exact (from_str_or_key_prints_back "foo:a-b" (mkKey "foo" ["a"; "b"]) eq_refl).
Defined.

(** X3: on well-formed Keys (no ':' in the name, dims non-empty and free
    of '-') the canonical string determines the Key, so [==] between two
    such Keys holds exactly when they have the same name and the same
    dims. *)
Theorem Key_eq_well_formed k1 k2 :
  well_formed k1 → well_formed k2 →
  (Key_repr k1 = Key_repr k2 ↔ k1 = k2) ∧
  (Key_eq k1 (VKey k2) = true ↔ k1 = k2).
Proof.
  intros Hw1 Hw2.
  assert (Key_repr k1 = Key_repr k2 ↔ k1 = k2) as Hiff.
  { split; [by apply Key_repr_inj | by intros ->]. }
  split; [exact Hiff|].
  unfold Key_eq, str_eq. rewrite String.eqb_eq, <- Hiff. split; congruence.
Qed.

Lemma Key_eq_well_formed_witness :
  (Key_repr (mkKey "foo" ["a"; "b"]) = Key_repr (mkKey "foo" ["b"; "a"]) ↔
   mkKey "foo" ["a"; "b"] = mkKey "foo" ["b"; "a"]) ∧
  (Key_eq (mkKey "foo" ["a"; "b"]) (VKey (mkKey "foo" ["b"; "a"])) = true ↔
   mkKey "foo" ["a"; "b"] = mkKey "foo" ["b"; "a"]).
Proof.
  apply (Key_eq_well_formed (mkKey "foo" ["a"; "b"]) (mkKey "foo" ["b"; "a"]));
    (split; [reflexivity|]); repeat constructor; discriminate.
Defined.

(** X4: a Key with at least one dim, no ':' in its name and neither ':'
    nor '-' in its dims is parsed back from its canonical string as
    itself, name and dims unchanged. *)
Theorem from_str_or_key_repr_exact name dims :
  count ":" name = 0 →
  dims ≠ [] →
  Forall (fun d => count ":" d = 0 ∧ count "-" d = 0) dims →
  from_str_or_key (VStr (Key_repr (mkKey name dims))) = Ok (mkKey name dims).
Proof.
  intros Hname Hne Hdims. apply Forall_and in Hdims as [Hc Hd].
  rewrite Key_repr_unfold. cbn [_name _dims from_str_or_key].
  change (name ++ ":" ++ join "-" dims)%string
    with (name ++ String ":" (join "-" dims))%string.
  rewrite split_app by done.
  rewrite split_none by (by apply count_join).
  by rewrite split_join.
Qed.

Lemma from_str_or_key_repr_exact_witness :
  from_str_or_key (VStr (Key_repr (mkKey "foo" ["a"; "b"]))) =
  Ok (mkKey "foo" ["a"; "b"]).
Proof.
  apply (from_str_or_key_repr_exact "foo" ["a"; "b"]);
    [reflexivity | discriminate | repeat constructor].
Defined.

(** X5: a Key without dims does not survive the round trip unchanged:
    'name:' is parsed as the Key with the single dim ''.  The two Keys
    compare equal, yet the original has no aggregates and the parsed one
    has one: the Key without dims, reduced over ['']. *)
Theorem from_str_or_key_repr_no_dims name :
  count ":" name = 0 →
  from_str_or_key (VStr (Key_repr (mkKey name []))) = Ok (mkKey name [""]) ∧
  Key_eq (mkKey name [""]) (VKey (mkKey name [])) = true ∧
  aggregates (mkKey name []) = [] ∧
  aggregates (mkKey name [""]) =
    [(mkKey name [], ({| dimensions := [""] |}, mkKey name [""]))].
Proof.
  intros Hname. split; [|split; [|split; reflexivity]].
  - rewrite Key_repr_unfold. cbn [_name _dims from_str_or_key].
    change (name ++ ":" ++ join "-" [])%string
      with (name ++ String ":" "")%string.
    by rewrite split_app.
  - unfold Key_eq, str_eq. apply String.eqb_refl.
Qed.

Lemma from_str_or_key_repr_no_dims_witness :
  from_str_or_key (VStr (Key_repr (mkKey "x" []))) = Ok (mkKey "x" [""]) ∧
  Key_eq (mkKey "x" [""]) (VKey (mkKey "x" [])) = true ∧
  aggregates (mkKey "x" []) = [] ∧
  aggregates (mkKey "x" [""]) =
    [(mkKey "x" [], ({| dimensions := [""] |}, mkKey "x" [""]))].
Proof. exact (from_str_or_key_repr_no_dims "x" eq_refl). Defined.

(** ** aggregates of any Key *)

Lemma Forall_sublist {A} (P : A → Prop) (l1 l2 : list A) :
  l1 `sublist_of` l2 → Forall P l2 → Forall P l1.
Proof.
  intros Hsub Hall. apply Forall_forall. intros x Hx.
  eapply (proj1 (Forall_forall P l2)); [done|]. by eapply elem_of_sublist.
Qed.

Lemma aggregates_In self key task source :
  In (key, (task, source)) (aggregates self) →
  _name key = _name self ∧ source = self ∧
  In (_dims key, dimensions task) (combo_partition (_dims self)).
Proof.
  unfold aggregates. intros Hin.
  apply in_map_iff in Hin as [[X Y] [Heq Hin]]. by injection Heq as <- <- <-.
Qed.

(** X6: for every Key, aggregates() yields 2^n - 1 pairs, n the number of
    dims; each Key yielded keeps the name and a proper, order-preserving
    sub-list of the dims, and its task refers to the original Key and to
    an order-preserving sub-list of the dims.  When the dims are distinct
    no dim is both kept and reduced over, and when the Key is well formed
    every Key yielded is well formed and does not compare equal to the
    original. *)
Theorem aggregates_every_key self :
  length (aggregates self) = 2 ^ length (_dims self) - 1 ∧
  Forall (fun '(key, (task, source)) =>
            _name key = _name self ∧ source = self ∧
            _dims key `sublist_of` _dims self ∧
            _dims key ≠ _dims self ∧
            dimensions task `sublist_of` _dims self)
         (aggregates self) ∧
  (NoDup (_dims self) →
   Forall (fun '(key, (task, source)) =>
             ∀ d, d ∈ _dims key → d ∉ dimensions task)
          (aggregates self)) ∧
  (well_formed self →
   Forall (fun '(key, (task, source)) =>
             well_formed key ∧ Key_eq key (VKey self) = false)
          (aggregates self)).
Proof.
  split; [|split; [|split]].
  - unfold aggregates. by rewrite length_map, combo_partition_length.
  - apply Forall_forall. intros [key [task source]] Hin.
    apply list_elem_of_In, aggregates_In in Hin as (Hn & Hs & Hin).
    pose proof (combo_partition_sublists _ _ _ Hin) as [HX HY].
    repeat split; try done. by eapply combo_partition_proper.
  - intros Hnd. apply Forall_forall. intros [key [task source]] Hin.
    apply list_elem_of_In, aggregates_In in Hin as (Hn & Hs & Hin).
    intros d. by eapply combo_partition_disjoint.
  - intros [Hname Hdims]. apply Forall_forall. intros [key [task source]] Hin.
    apply list_elem_of_In, aggregates_In in Hin as (Hn & Hs & Hin).
    pose proof (combo_partition_sublists _ _ _ Hin) as [HX _].
    assert (well_formed key) as Hwf.
    { split; [by rewrite Hn | by eapply Forall_sublist]. }
    split; [done|].
    destruct (Key_eq key (VKey self)) eqn:Heq; [|done]. exfalso.
    unfold Key_eq, str_eq in Heq. apply String.eqb_eq in Heq.
    apply Key_repr_inj in Heq; [|done|done].
    apply (combo_partition_proper _ _ _ Hin). by rewrite Heq.
Qed.

(** ** combo_partition: first pair, short lists, no repetition *)

Lemma ceil_sqrt_pos n : (1 ≤ n → 1 ≤ ceil_sqrt n)%nat.
Proof.
  intros Hn. unfold ceil_sqrt.
  pose proof (Nat.sqrt_spec n (Nat.le_0_l n)) as [Hlo Hhi].
  destruct (Nat.eqb _ _); nia.
Qed.

Lemma ceil_sqrt_lt n : (3 ≤ n → ceil_sqrt n < n)%nat.
Proof.
  intros Hn. unfold ceil_sqrt.
  pose proof (Nat.sqrt_spec n (Nat.le_0_l n)) as [Hlo Hhi].
  destruct (Nat.eqb_spec (Nat.sqrt n * Nat.sqrt n) n); nia.
Qed.

Lemma compress_none {A} (S : list A) m : compress S (repeat false m) = [].
Proof.
  revert m. induction S as [|x S IH]; intros [|m]; simpl; auto.
Qed.

Lemma compress_ones {A} (S : list A) m : compress S (repeat true m) = take m S.
Proof.
  revert m. induction S as [|x S IH]; intros [|m]; simpl; try done.
  by rewrite IH.
Qed.

Lemma pat_zero w : (1 ≤ w)%nat → pat w 0 = repeat false w.
Proof.
  intros Hw. rewrite pat_unfold. cbn.
  replace w with (w - 1 + 1)%nat at 2 by lia. by rewrite repeat_app.
Qed.

(** X7: the first pair combo_partition yields for a non-empty S is
    ([], the first ceil(sqrt(n)) elements of S).  Up to two elements that
    is all of S; from three elements on it is strictly fewer, so the
    first pair never accounts for the end of S. *)
Theorem combo_partition_first_pair {A} (S : list A) :
  S ≠ [] →
  head (combo_partition S) = Some ([], take (ceil_sqrt (length S)) S) ∧
  ((length S ≤ 2)%nat → take (ceil_sqrt (length S)) S = S) ∧
  ((3 ≤ length S)%nat →
   (length (take (ceil_sqrt (length S)) S) < length S)%nat).
Proof.
  intros Hne.
  assert (1 ≤ length S)%nat as Hlen by (destruct S; [done | simpl; lia]).
  split; [|split].
  - unfold combo_partition, range.
    assert (∃ m, 2 ^ length S - 1 = Datatypes.S m)%nat as [m ->].
    { exists (2 ^ length S - 2)%nat.
      pose proof (Nat.pow_le_mono_r 2 1 (length S)). simpl in *. lia. }
    cbn [seq map head]. change (N.of_nat 0) with 0%N.
    rewrite selectors_pat, pat_zero by by apply ceil_sqrt_pos.
    f_equal. f_equal; [apply compress_none|].
    rewrite map_repeat. apply compress_ones.
  - intros Hle. destruct S as [|x [|y [|z S]]]; simpl in *; try done. lia.
  - intros Hge. rewrite length_take. pose proof (ceil_sqrt_lt _ Hge). lia.
Qed.

Lemma combo_partition_first_pair_witness :
  head (combo_partition ["a"; "b"; "c"; "d"; "e"]) =
    Some ([], take (ceil_sqrt 5) ["a"; "b"; "c"; "d"; "e"]) ∧
  ((5 ≤ 2)%nat →
   take (ceil_sqrt 5) ["a"; "b"; "c"; "d"; "e"] = ["a"; "b"; "c"; "d"; "e"]) ∧
  ((3 ≤ 5)%nat →
   (length (take (ceil_sqrt 5) ["a"; "b"; "c"; "d"; "e"]) < 5)%nat).
Proof.
  apply (combo_partition_first_pair ["a"; "b"; "c"; "d"; "e"]). discriminate.
Defined.

(** X8: on a list of at most two elements every pair combo_partition
    yields is a partition of the list: the two sides together hold each
    element exactly once. *)
Theorem combo_partition_short {A} (S X Y : list A) :
  (length S ≤ 2)%nat → In (X, Y) (combo_partition S) → X ++ Y ≡ₚ S.
Proof.
  intros Hlen Hin.
  destruct S as [|x [|y [|z S]]]; simpl in Hlen; [| | |lia].
  - destruct Hin.
  - destruct Hin as [Heq|[]]. by injection Heq as <- <-.
  - destruct Hin as [Heq|[Heq|[Heq|[]]]]; injection Heq as <- <-;
      simpl; [done|apply perm_swap|done].
Qed.

Lemma combo_partition_short_witness : ["b"] ++ ["a"] ≡ₚ ["a"; "b"].
Proof.
  apply (combo_partition_short ["a"; "b"] ["b"] ["a"]).
  - simpl. lia.
  - simpl. right. left. reflexivity.
Defined.

Lemma string_length_app s t :
  String.length (s ++ t) = (String.length s + String.length t)%nat.
Proof. by rewrite <- !chars_length, chars_app, length_app. Qed.

Lemma pos_digits_length p :
  (2 ^ String.length (pos_digits p) ≤ 2 * Pos.to_nat p)%nat.
Proof.
  induction p as [p IH|p IH|]; cbn [pos_digits]; [| |simpl; lia];
    rewrite string_length_app, Nat.add_1_r, Nat.pow_succ_r'; lia.
Qed.

Lemma pat_length w k :
  length (pat w k) = Nat.max w (String.length (bin k)).
Proof.
  rewrite pat_unfold, length_app, repeat_length, length_map, chars_length. lia.
Qed.

(** The pattern of a number in range is never longer than the list. *)
Lemma pat_length_le n k :
  (k < 2 ^ n - 1)%nat → (length (pat (ceil_sqrt n) (N.of_nat k)) ≤ n)%nat.
Proof.
  intros Hk. assert (1 ≤ n)%nat as Hn by (destruct n; simpl in Hk; lia).
  rewrite pat_length. pose proof (ceil_sqrt_le n) as Hw.
  apply Nat.max_lub; [done|]. destruct k as [|k]; [done|].
  change (N.of_nat (S k)) with (Npos (Pos.of_succ_nat k)). cbn [bin].
  pose proof (pos_digits_length (Pos.of_succ_nat k)) as Hd.
  rewrite SuccNat2Pos.id_succ in Hd.
  assert (2 ^ String.length (pos_digits (Pos.of_succ_nat k)) < 2 ^ S n)%nat
    as Hlt by (rewrite Nat.pow_succ_r'; lia).
  apply Nat.pow_lt_mono_r_iff in Hlt; lia.
Qed.

(** On distinct elements, a selector no longer than the list can be read
    off the two lists it produces. *)
Lemma compress_inj {A} (S : list A) (a a' : list bool) :
  NoDup S →
  (length a ≤ length S)%nat → (length a' ≤ length S)%nat →
  compress S a = compress S a' →
  compress S (map negb a) = compress S (map negb a') →
  a = a'.
Proof.
  intros Hnd. revert a a'.
  induction Hnd as [|x S Hx Hnd IH]; intros a a' Ha Ha' HX HY.
  - destruct a, a'; simpl in *; try lia. done.
  - assert (∀ sel, x ∉ compress S sel) as Hout.
    { intros sel Hin. apply Hx. eapply elem_of_sublist; [exact Hin|].
      apply compress_sublist. }
    destruct a as [|b a], a' as [|b' a']; [done| | |].
    + destruct b'; simpl in *; discriminate.
    + destruct b; simpl in *; discriminate.
    + simpl in Ha, Ha'.
      destruct b, b'; simpl in HX, HY.
      * injection HX as HX. f_equal. apply IH; [lia|lia|done|done].
      * exfalso. apply (Hout a'). rewrite <- HX. by left.
      * exfalso. apply (Hout a). rewrite HX. by left.
      * injection HY as HY. f_equal. apply IH; [lia|lia|done|done].
Qed.

(** X9: on a list of distinct elements combo_partition never yields the
    same pair twice. *)
Theorem combo_partition_NoDup {A} (S : list A) :
  NoDup S → NoDup (combo_partition S).
Proof.
  intros Hnd. unfold combo_partition, range. rewrite map_map.
  apply (NoDup_fmap_2_strong _ (seq 0 (2 ^ length S - 1))); [|apply NoDup_seq].
  intros k1 k2 Hk1 Hk2. rewrite !selectors_pat. intros Heq.
  injection Heq as HX HY.
  apply list_elem_of_In, in_seq in Hk1. apply list_elem_of_In, in_seq in Hk2.
  apply compress_inj in HX; [|done| | |done]; try (apply pat_length_le; lia).
  rewrite <- (bits_val_pat (ceil_sqrt (length S)) k1), HX.
  apply bits_val_pat.
Qed.

Lemma combo_partition_NoDup_witness : NoDup (combo_partition ["a"; "b"; "c"]).
Proof.
  apply (combo_partition_NoDup ["a"; "b"; "c"]).
  apply (bool_decide_unpack _). by vm_compute.
Defined.

(** X1: the pair combo_partition(S) yields at position k, for k below
    2^n - 1, splits the first L elements of S between its two lists, each
    in the order of S, where L is the length of the pattern of k: the
    longer of ceil(sqrt(n)) and the number of binary digits of k.  The
    elements of S beyond the first L are in neither list. *)
Theorem combo_partition_splits_prefix {A} (S X Y : list A) (k : nat) :
  combo_partition S !! k = Some (X, Y) →
  (k < 2 ^ length S - 1)%nat ∧
  X `sublist_of` S ∧ Y `sublist_of` S ∧
  X ++ Y ≡ₚ take (length (pat (ceil_sqrt (length S)) (N.of_nat k))) S ∧
  length (pat (ceil_sqrt (length S)) (N.of_nat k)) =
    Nat.max (ceil_sqrt (length S)) (String.length (bin (N.of_nat k))).
Proof.
  rewrite combo_partition_lookup. case_decide as Hk; [|done].
  intros [= <- <-]. split; [done|].
  split; [apply compress_sublist|]. split; [apply compress_sublist|].
  split; [|apply pat_length].
  rewrite <- (length_map negb) at 1. rewrite length_map. apply compress_take.
Qed.

Lemma combo_partition_splits_prefix_witness :
  (0 < 2 ^ 3 - 1)%nat ∧
  ([] : list string) `sublist_of` ["a"; "b"; "c"] ∧
  ["a"; "b"] `sublist_of` ["a"; "b"; "c"] ∧
  [] ++ ["a"; "b"] ≡ₚ take (length (pat (ceil_sqrt 3) 0)) ["a"; "b"; "c"] ∧
  length (pat (ceil_sqrt 3) 0) =
    Nat.max (ceil_sqrt 3) (String.length (bin 0)).
Proof.
  exact (combo_partition_splits_prefix ["a"; "b"; "c"] [] ["a"; "b"] 0 eq_refl).
Defined.

Lemma bits_val_one_zeros m : bits_val (true :: repeat false m) = (2 ^ m)%nat.
Proof. rewrite bits_val_cons, bits_val_zeros, repeat_length. simpl. lia. Qed.

(** X10: for a Key with n >= 3 dims, d followed by the others, and every
    m from ceil(sqrt(n)) - 1 to n - 1, the pair aggregates() yields at
    position 2^m is the Key that keeps only d, with a task that reduces
    over the first m of the other dims.  Tasks for different m differ,
    and there are at least two such m: that Key is yielded at least
    n - ceil(sqrt(n)) + 1 times, each time with another task. *)
Theorem aggregates_first_dim_repeated name d rest m :
  (2 ≤ length rest)%nat →
  (ceil_sqrt (S (length rest)) - 1 ≤ m ≤ length rest)%nat →
  aggregates (mkKey name (d :: rest)) !! (2 ^ m)%nat =
    Some (mkKey name [d],
          ({| dimensions := take m rest |}, mkKey name (d :: rest))) ∧
  (∀ m', (m' ≤ length rest)%nat → take m' rest = take m rest → m' = m) ∧
  (ceil_sqrt (S (length rest)) - 1 < length rest)%nat.
Proof.
  intros Hlen [Hlo Hhi].
  pose proof (ceil_sqrt_lt (S (length rest))) as Hlt.
  split; [|split; [|lia]].
  - unfold aggregates. cbn [_name _dims].
    change (map ?f ?l) with (f <$> l). rewrite list_lookup_fmap.
    rewrite combo_partition_lookup. cbn [length].
    assert (2 ^ m < 2 ^ S (length rest) - 1)%nat as Hk.
    { rewrite Nat.pow_succ_r'.
      pose proof (Nat.pow_le_mono_r 2 m (length rest)).
      pose proof (Nat.pow_le_mono_r 2 1 (length rest)). simpl in *. lia. }
    case_decide; [|done].
    rewrite <- bits_val_one_zeros.
    rewrite pat_of_bits by (rewrite repeat_length; lia).
    cbn [map negb compress fmap option_fmap option_map].
    by rewrite compress_none, map_repeat, compress_ones.
  - intros m' Hm' Heq. apply (f_equal length) in Heq.
    rewrite !length_take in Heq. lia.
Qed.

Lemma aggregates_first_dim_repeated_witness :
  aggregates foo_abc !! (2 ^ 1)%nat =
    Some (mkKey "foo" ["a"],
          ({| dimensions := take 1 ["b"; "c"] |}, foo_abc)) ∧
  (∀ m', (m' ≤ 2)%nat → take m' ["b"; "c"] = take 1 ["b"; "c"] → m' = 1%nat) ∧
  (ceil_sqrt 3 - 1 < 2)%nat.
Proof.
  apply (aggregates_first_dim_repeated "foo" "a" ["b"; "c"] 1);
    simpl; lia.
Defined.

(** ** quantity_as_xr: which exception, and when *)

Lemma bind_Raise {A B} (r : result A) (k : A → result B) e :
  bind r k = Raise e → r = Raise e ∨ ∃ a, r = Ok a ∧ k a = Raise e.
Proof.
  destruct r as [a|e']; simpl; intros Hr; [right; by exists a|].
  injection Hr as ->. by left.
Qed.

Lemma remove_Raise x l e : remove x l = Raise e → e = ValueError.
Proof.
  induction l as [|y l IH]; simpl; [by intros [= <-]|].
  case_decide; [done|]. intros Hr.
  apply bind_Raise in Hr as [Hr|(l' & _ & Hr)]; [by apply IH | done].
Qed.

Lemma remove_each_Raise xs l e : remove_each xs l = Raise e → e = ValueError.
Proof.
  revert l. induction xs as [|x xs IH]; simpl; intros l Hr; [done|].
  apply bind_Raise in Hr as [Hr|(l' & _ & Hr)];
    [by eapply remove_Raise | by eapply IH].
Qed.

Lemma remove_elem_of x l l' y : remove x l = Ok l' → y ∈ l' → y ∈ l.
Proof.
  revert l'. induction l as [|z l IH]; simpl; intros l' Hr Hy; [done|].
  case_decide.
  - injection Hr as <-. by right.
  - bind_inv Hr. injection Hr as <-.
    apply elem_of_cons in Hy as [->|Hy]; [by left|]. right. by eapply IH.
Qed.

Lemma remove_missing x l : x ∉ l → remove x l = Raise ValueError.
Proof.
  induction l as [|y l IH]; simpl; [done|]. intros Hx.
  apply not_elem_of_cons in Hx as [Hne Hx].
  case_decide; [done|]. by rewrite IH.
Qed.

Lemma remove_each_missing xs l x :
  x ∈ xs → x ∉ l → remove_each xs l = Raise ValueError.
Proof.
  revert l. induction xs as [|y xs IH]; intros l Hin Hx; [by inversion Hin|].
  cbn [remove_each]. destruct (remove y l) as [l'|e] eqn:Hr.
  - cbn [bind]. apply elem_of_cons in Hin as [->|Hin].
    + by rewrite remove_missing in Hr.
    + apply IH; [done|]. intros Hx'. apply Hx. by eapply remove_elem_of.
  - apply remove_Raise in Hr as ->. done.
Qed.

Lemma from_dataframe_Raise data e :
  from_dataframe data = Raise e → e = ValueError.
Proof.
  unfold from_dataframe.
  destruct (index data) as [|[d ls] [|level levels]]; try done.
  case_decide; [done|]. by intros [= <-].
Qed.

Lemma squeeze_Raise dim ds e :
  squeeze dim ds = Raise e →
  e = KeyError ∨ e = ValueError ∨ e = IndexError.
Proof.
  unfold squeeze.
  destruct (assoc dim (sizes ds)); [|intros [= <-]; auto].
  destruct (position dim (map fst (sizes ds))); [|intros [= <-]; auto].
  repeat case_decide; intros [= <-]; auto.
Qed.

Lemma to_arrays_Raise name kind attrs data e :
  to_arrays name kind attrs data = Raise e →
  e = KeyError ∨ e = ValueError ∨ e = IndexError.
Proof.
  unfold to_arrays. intros Hr.
  apply bind_Raise in Hr as [Hr|(cols & _ & Hr)].
  { unfold value_columns in Hr.
    destruct (assoc kind _); [done|]. injection Hr as <-. by left. }
  apply bind_Raise in Hr as [Hr|(dims & _ & Hr)].
  { apply remove_each_Raise in Hr. auto. }
  apply bind_Raise in Hr as [Hr|(ds & _ & Hr)].
  { apply from_dataframe_Raise in Hr. auto. }
  apply bind_Raise in Hr as [Hr|(ds' & _ & Hr)].
  { destruct (squeeze "index" ds) as [?|e'] eqn:Hs; [done|].
    apply squeeze_Raise in Hs.
    destruct Hs as [->|[->| ->]]; [done| |]; injection Hr as <-; auto. }
  left. revert Hr. generalize (value_columns kind). intros _.
  induction cols as [|col cols IH]; simpl; [done|]. intros Hr.
  apply bind_Raise in Hr as [Hr|(arr & _ & Hr)].
  { unfold getitem_named in Hr. destruct (assoc col _); [done|].
    by injection Hr as <-. }
  apply bind_Raise in Hr as [Hr|(rest & _ & Hr)]; [by apply IH | done].
Qed.

(** X11: once the scenario has handed over the data, quantity_as_xr
    raises AssertionError exactly when the table has a 'unit' column whose
    number of distinct values is not one: two or more, or none at all (a
    table without rows).  A table without a 'unit' column never does. *)
Theorem quantity_as_xr_assertion scenario name kind method data :
  scenario kind = Some method →
  method name = Ok data →
  quantity_as_xr scenario name kind = Raise AssertionError ↔
  ∃ units, assoc "unit" (columns (as_frame data)) = Some units ∧
           length (unique units) ≠ 1%nat.
Proof.
  intros Hget Hcall. unfold quantity_as_xr.
  rewrite Hget. cbn [bind]. rewrite Hcall. cbn [bind].
  unfold strip_unit, pop.
  destruct (assoc "unit" (columns (as_frame data))) as [units|]; cbn [bind].
  - destruct (unique units) as [|u [|u' us]] eqn:Hu; cbn [bind].
    + split; [|done]. intros _. exists units. by rewrite Hu.
    + split.
      * intros Hr. apply to_arrays_Raise in Hr as [|[|]]; done.
      * intros (units' & [= <-] & Hlen). by rewrite Hu in Hlen.
    + split; [|done]. intros _. exists units. by rewrite Hu.
  - split.
    + intros Hr. apply to_arrays_Raise in Hr as [|[|]]; done.
    + by intros (units & Hsome & _).
Qed.

Lemma quantity_as_xr_assertion_witness :
  quantity_as_xr
    (scenario_with
       (AFrame {| index := []; columns := [("unit", []); ("value", [])];
                  nrows := 0 |}))
    "foo" "par" = Raise AssertionError.
Proof.
  apply (quantity_as_xr_assertion _ "foo" "par"
           (fun _ => Ok (AFrame {| index := [];
                                   columns := [("unit", []); ("value", [])];
                                   nrows := 0 |})) _ eq_refl eq_refl).
  exists []. split; [reflexivity | discriminate].
Defined.

(** X12: when the table, once its unit column is stripped, lacks one of
    the value columns of the kind, quantity_as_xr raises ValueError. *)
Theorem quantity_as_xr_missing_value_column
    scenario name kind method data attrs data' cols col :
  scenario kind = Some method →
  method name = Ok data →
  strip_unit (as_frame data) = Ok (attrs, data') →
  value_columns kind = Ok cols →
  col ∈ cols →
  col ∉ map fst (columns data') →
  quantity_as_xr scenario name kind = Raise ValueError.
Proof.
  intros Hget Hcall Hstrip Hcols Hin Hout. unfold quantity_as_xr.
  rewrite Hget. cbn [bind]. rewrite Hcall. cbn [bind].
  rewrite Hstrip. cbn [bind]. unfold to_arrays. rewrite Hcols. cbn [bind].
  by rewrite (remove_each_missing cols _ col).
Qed.

Lemma quantity_as_xr_missing_value_column_witness :
  quantity_as_xr (scenario_with (AFrame (table_ab "kg" "kg"))) "foo" "equ" =
  Raise ValueError.
Proof.
  apply (quantity_as_xr_missing_value_column
           (scenario_with (AFrame (table_ab "kg" "kg"))) "foo" "equ"
           (fun _ => Ok (AFrame (table_ab "kg" "kg"))) _
           [("unit", CStr "kg")] table_ab_values
           ["lvl"; "mrg"] "lvl" eq_refl eq_refl eq_refl eq_refl).
  - by left.
  - apply (bool_decide_unpack _). by vm_compute.
Defined.

(** ** quantity_as_xr on a table with dimension columns *)

Lemma filter_all {A} (P : A → Prop) `{∀ x, Decision (P x)} (l : list A) :
  Forall P l → filter P l = l.
Proof.
  induction 1 as [|x l Hx Hl IH]; [done|].
  rewrite filter_cons_True by done. by rewrite IH.
Qed.

Lemma remove_ok x l :
  NoDup l → x ∈ l → remove x l = Ok (filter (fun y => y ≠ x) l).
Proof.
  induction 1 as [|y l Hy Hnd IH]; intros Hin; [by inversion Hin|].
  cbn [remove]. case_decide as Hyx.
  - subst y. rewrite filter_cons_False by (intros Hne; by apply Hne).
    rewrite filter_all; [done|].
    apply Forall_forall. intros z Hz ->. done.
  - apply elem_of_cons in Hin as [->|Hin]; [done|].
    rewrite IH by done. cbn [bind]. by rewrite filter_cons_True.
Qed.

Lemma remove_each_ok xs l :
  NoDup xs → NoDup l → (∀ x, x ∈ xs → x ∈ l) →
  remove_each xs l = Ok (filter (fun y => y ∉ xs) l).
Proof.
  intros Hxs. revert l. induction Hxs as [|x xs Hx Hxs IH]; intros l Hl Hin.
  - cbn [remove_each]. rewrite filter_all; [done|].
    apply Forall_forall. intros y _ Hy. by inversion Hy.
  - cbn [remove_each]. rewrite remove_ok; [|done|apply Hin; by left].
    cbn [bind]. rewrite IH.
    + f_equal. rewrite list_filter_filter. apply list_filter_iff.
      intros y. rewrite not_elem_of_cons. tauto.
    + by apply NoDup_filter.
    + intros y Hy. apply list_elem_of_filter. split; [by intros ->|].
      apply Hin. by right.
Qed.

Lemma assoc_Some {V} key (items : list (string * V)) :
  key ∈ map fst items → is_Some (assoc key items).
Proof.
  induction items as [|[k v] items IH]; simpl; [by inversion 1|].
  intros Hin. case_decide; [by eexists|].
  apply elem_of_cons in Hin as [->|Hin]; [done | by apply IH].
Qed.

Lemma assoc_None {V} key (items : list (string * V)) :
  key ∉ map fst items → assoc key items = None.
Proof.
  induction items as [|[k v] items IH]; simpl; [done|].
  intros Hout. apply not_elem_of_cons in Hout as [Hne Hout].
  case_decide; [done | by apply IH].
Qed.

Lemma assoc_map {V W} (f : V → W) key (items : list (string * V)) :
  assoc key (map (fun '(k, v) => (k, f v)) items) = f <$> assoc key items.
Proof.
  induction items as [|[k v] items IH]; simpl; [done|]. by case_decide.
Qed.

Lemma assoc_filter {V} (P : string → Prop) `{∀ k, Decision (P k)}
    key (items : list (string * V)) :
  P key → assoc key (filter (fun c => P c.1) items) = assoc key items.
Proof.
  intros HP. induction items as [|[k v] items IH]; [done|].
  destruct (decide (P k)) as [Hk|Hk].
  - rewrite filter_cons_True by done. simpl. by rewrite IH.
  - rewrite filter_cons_False by done. simpl.
    case_decide; [by subst|done].
Qed.

Lemma from_dataframe_single data d labels :
  index data = [(d, labels)] →
  from_dataframe data =
  Ok {| sizes := [(d, nrows data)];
        data_vars :=
          map (fun '(c, vals) => (c, zip (row_labels data) vals))
              (columns data) |}.
Proof. unfold from_dataframe. by intros ->. Qed.

(** Under one index level each row is labelled by its entry there. *)
Lemma row_labels_single data d labels :
  index data = [(d, labels)] → length labels = nrows data →
  row_labels data = map (fun l => [l]) labels.
Proof.
  unfold row_labels. intros -> <-. apply list_eq. intros i.
  change (map ?f ?l) with (f <$> l). rewrite !list_lookup_fmap.
  destruct (decide (i < length labels)%nat) as [Hi|Hi].
  - rewrite lookup_seq_lt by done. cbn.
    destruct (lookup_lt_is_Some_2 labels i Hi) as [l ->]. done.
  - rewrite lookup_seq_ge by lia. by rewrite lookup_ge_None_2 by lia.
Qed.

Lemma squeeze_absent dim ds :
  dim ∉ map fst (sizes ds) → squeeze dim ds = Raise KeyError.
Proof. intros Hout. unfold squeeze. by rewrite assoc_None. Qed.

Lemma collect_ok ds attrs name cols
    (values : string → option (list (list cell * cell))) :
  (∀ col, col ∈ cols →
          is_Some (values col) ∧ assoc col (data_vars ds) = values col) →
  ∃ r, collect ds attrs name cols = Ok r ∧
       Forall2 (fun col '(key, arr) =>
                  key = col ∧ da_name arr = name ∧ da_attrs arr = attrs ∧
                  da_dims arr = map fst (sizes ds) ∧
                  Some (da_values arr) = values col) cols r.
Proof.
  induction cols as [|col cols IH]; intros Hvals.
  - exists []. split; [done | constructor].
  - destruct IH as (r & Hr & Hall).
    { intros c Hc. apply Hvals. by right. }
    destruct (Hvals col) as [[pts Hpts] Hassoc]; [by left|].
    cbn [collect]. unfold getitem_named. rewrite Hassoc, Hpts. cbn [bind].
    rewrite Hr. cbn [bind]. eexists. split; [done|].
    constructor; [|done]. by rewrite Hpts.
Qed.

(** X13: the main path with one dimension.  Take a table whose column
    names are distinct and which, with its unit column stripped, has
    every value column of the kind and exactly one other column d, not
    called 'index', as long as the table.  quantity_as_xr returns one
    array per value column, in order, keyed by the column: it is named
    after the quantity, carries the attributes, has d as its only
    dimension, and holds the column's values in table order, each under
    its row's label in d. *)
Theorem quantity_as_xr_table
    scenario name kind method data attrs data' cols d labels :
  scenario kind = Some method →
  method name = Ok data →
  strip_unit (as_frame data) = Ok (attrs, data') →
  value_columns kind = Ok cols →
  NoDup (map fst (columns data')) →
  (∀ col, col ∈ cols → col ∈ map fst (columns data')) →
  dimension_columns cols data' = [d] →
  d ≠ "index" →
  assoc d (columns data') = Some labels →
  length labels = nrows data' →
  ∃ r, quantity_as_xr scenario name kind = Ok r ∧
       Forall2
         (fun col '(key, arr) =>
            key = col ∧ da_name arr = name ∧ da_attrs arr = attrs ∧
            da_dims arr = [d] ∧
            Some (da_values arr) =
              zip (map (fun l => [l]) labels) <$> assoc col (columns data'))
         cols r.
Proof.
  intros Hget Hcall Hstrip Hcols Hnd Hvals Hdims Hindex Hlabels Hlen.
  assert (NoDup cols) as Hndc.
  { apply value_columns_Ok in Hcols as [[_ ->]|[_ ->]];
      apply (bool_decide_unpack _); by vm_compute. }
  assert (index (set_index [d] data') = [(d, labels)]) as Hidx.
  { unfold set_index. cbn [index omap list_omap]. by rewrite Hlabels. }
  pose proof (from_dataframe_single _ _ _ Hidx) as Hds.
  rewrite (row_labels_single _ _ _ Hidx) in Hds by done.
  cbn [set_index nrows columns] in Hds.
  match type of Hds with _ = Ok ?x => set (ds := x) in * end.
  destruct (collect_ok ds attrs name cols
              (fun col => zip (map (fun l => [l]) labels)
                            <$> assoc col (columns data')))
    as (r & Hr & Hall).
  { intros col Hcol. split.
    - destruct (assoc_Some col (columns data') (Hvals col Hcol)) as [v ->].
      by eexists.
    - unfold ds. cbn [data_vars]. rewrite assoc_map. f_equal.
      refine (assoc_filter (fun k => k ∉ [d]) col (columns data') _).
      rewrite <- Hdims. intros Hin.
      by apply list_elem_of_filter in Hin as [Hout _]. }
  exists r. split; [|exact Hall].
  unfold quantity_as_xr. rewrite Hget. cbn [bind]. rewrite Hcall. cbn [bind].
  rewrite Hstrip. cbn [bind]. unfold to_arrays. rewrite Hcols. cbn [bind].
  rewrite remove_each_ok by done. fold (dimension_columns cols data').
  rewrite Hdims. cbn [bind length].
  destruct (decide (1 = 0)%nat) as [Hz|_]; [done|].
  rewrite Hds. cbn [bind].
  rewrite squeeze_absent; [exact Hr|].
  unfold ds. cbn [sizes map fst]. by rewrite list_elem_of_singleton.
Qed.

Lemma quantity_as_xr_table_witness :
  ∃ r,
    quantity_as_xr (scenario_with (AFrame (table_a "kg" "kg"))) "foo" "par"
      = Ok r ∧
    Forall2
      (fun col '(key, arr) =>
         key = col ∧ da_name arr = "foo" ∧
         da_attrs arr = [("unit", CStr "kg")] ∧
         da_dims arr = ["a"] ∧
         Some (da_values arr) =
           zip (map (fun l => [l]) [CStr "a1"; CStr "a2"])
             <$> assoc col (columns table_a_values))
      ["value"] r.
Proof.
  apply (quantity_as_xr_table
           (scenario_with (AFrame (table_a "kg" "kg"))) "foo" "par"
           (fun _ => Ok (AFrame (table_a "kg" "kg"))) _
           [("unit", CStr "kg")] table_a_values
           ["value"] "a" [CStr "a1"; CStr "a2"]
           eq_refl eq_refl eq_refl eq_refl).
  - apply (bool_decide_unpack _). by vm_compute.
  - intros col Hcol. apply list_elem_of_singleton in Hcol as ->.
    apply (bool_decide_unpack _). by vm_compute.
  - reflexivity.
  - discriminate.
  - reflexivity.
  - reflexivity.
Defined.

(** ** Scalars of any kind *)

Lemma filter_map_columns (P : string → Prop) `{∀ k, Decision (P k)}
    (record : list (string * cell)) :
  filter (fun c : string * list cell => P c.1)
         (map (fun '(k, v) => (k, [v])) record) =
  map (fun '(k, v) => (k, [v])) (filter (fun c => P c.1) record).
Proof.
  induction record as [|[k v] record IH]; [done|]. cbn [map].
  destruct (decide (P k)) as [Hk|Hk].
  - rewrite !filter_cons_True by done. cbn [map]. by rewrite IH.
  - by rewrite !filter_cons_False.
Qed.

Lemma map_fst_columns (record : list (string * cell)) :
  map fst (map (fun '(k, v) => (k, [v])) record) = map fst record.
Proof. rewrite map_map. apply map_ext. by intros []. Qed.

Lemma filter_nothing {A} (P : A → Prop) `{∀ x, Decision (P x)} (l : list A) :
  Forall (fun x => ¬ P x) l → filter P l = [].
Proof.
  induction 1 as [|x l Hx Hl IH]; [done|]. by rewrite filter_cons_False.
Qed.

(** What is left of a scalar record once its unit is stripped. *)
Lemma strip_unit_record record :
  ∃ attrs,
    strip_unit (from_records1 record) =
      Ok (attrs,
          {| index := [];
             columns := map (fun '(k, v) => (k, [v]))
                            (filter (fun c => c.1 ≠ "unit") record);
             nrows := 1 |}) ∧
    attrs = match assoc "unit" record with
            | Some u => [("unit", u)]
            | None => []
            end.
Proof.
  unfold strip_unit, pop, from_records1. cbn [columns index nrows].
  rewrite (assoc_map (fun v => [v])).
  destruct (assoc "unit" record) as [u|] eqn:Hu; cbn.
  - eexists. split; [|done]. do 3 f_equal.
    exact (filter_map_columns (fun k => k ≠ "unit") record).
  - eexists. split; [|done]. do 3 f_equal.
    rewrite filter_all; [done|].
    apply Forall_forall. intros [k v] Hin Hk. cbn in Hk. subst k.
    destruct (assoc_Some "unit" record) as [u Hsome]; [|congruence].
    apply list_elem_of_fmap. by exists ("unit", v).
Qed.

(** X14: a scalar record of any kind, a dict holding the kind's value
    columns, possibly a 'unit', and nothing else, comes back as one
    array per value column, in order: each without dimensions, named
    after the quantity, holding the record's value for its column, and
    carrying the unit if the record has one. *)
Theorem quantity_as_xr_scalar_any scenario name kind method record cols :
  scenario kind = Some method →
  method name = Ok (ADict record) →
  value_columns kind = Ok cols →
  NoDup (map fst record) →
  (∀ col, col ∈ cols → col ∈ map fst record) →
  (∀ key, key ∈ map fst record → key ∈ cols ∨ key = "unit") →
  ∃ r, quantity_as_xr scenario name kind = Ok r ∧
       Forall2
         (fun col '(key, arr) =>
            key = col ∧ da_name arr = name ∧
            da_attrs arr = match assoc "unit" record with
                           | Some u => [("unit", u)]
                           | None => []
                           end ∧
            da_dims arr = [] ∧
            Some (da_values arr) =
              (fun v => [([], v)]) <$> assoc col record)
         cols r.
Proof.
  intros Hget Hcall Hcols Hnd Hvals Hkeys.
  destruct (strip_unit_record record) as (attrs & Hstrip & ->).
  set (rest := filter (fun c : string * cell => c.1 ≠ "unit") record) in *.
  set (data' := {| index := [];
                   columns := map (fun '(k, v) => (k, [v])) rest;
                   nrows := 1 |}) in *.
  assert (NoDup cols ∧ "unit" ∉ cols) as [Hndc Hunit].
  { apply value_columns_Ok in Hcols as [[_ ->]|[_ ->]];
      split; apply (bool_decide_unpack _); by vm_compute. }
  assert (∀ key, key ∈ map fst rest ↔ key ∈ map fst record ∧ key ≠ "unit")
    as Hrest.
  { intros key. rewrite !list_elem_of_fmap. split.
    - intros ([k v] & -> & Hin). apply list_elem_of_filter in Hin as [Hk Hin].
      split; [by exists (k, v) | done].
    - intros [([k v] & -> & Hin) Hk]. exists (k, v). split; [done|].
      by apply list_elem_of_filter. }
  assert (remove_each cols (map fst (columns data')) = Ok []) as Hrem.
  { cbn [data' columns]. rewrite map_fst_columns.
    rewrite remove_each_ok; [f_equal| done | |].
    - apply filter_nothing, Forall_forall. intros key Hin Hout.
      apply Hrest in Hin as [Hin Hne]. by destruct (Hkeys key Hin).
    - apply (sublist_NoDup _ (map fst record)); [exact Hnd|].
      apply (fmap_sublist fst), sublist_filter.
    - intros col Hcol. apply Hrest. split; [by apply Hvals|].
      by intros ->. }
  set (ds := {| sizes := [];
                data_vars :=
                  map (fun '(c, pts) =>
                         (c, map (fun '(co, v) => (delete 0 co, v)) pts))
                      (map (fun '(c, vals) => (c, zip [[CNum 0]] vals))
                           (columns data')) |}).
  destruct (collect_ok ds
              match assoc "unit" record with
              | Some u => [("unit", u)]
              | None => []
              end name cols
              (fun col => (fun v => [([], v)]) <$> assoc col record))
    as (r & Hr & Hall).
  { intros col Hcol. split.
    - destruct (assoc_Some col record (Hvals col Hcol)) as [v ->].
      by eexists.
    - unfold ds, data', rest. cbn [data_vars columns].
      rewrite (assoc_map (map (fun '(co, v) => (delete 0 co, v)))).
      rewrite (assoc_map (zip [[CNum 0]])), (assoc_map (fun v => [v])).
      pose proof (assoc_filter (fun k => k ≠ "unit") col record) as Hf.
      cbv beta in Hf. rewrite Hf by by intros ->.
      by destruct (assoc col record). }
  exists r. split; [|exact Hall].
  unfold quantity_as_xr. rewrite Hget. cbn [bind]. rewrite Hcall. cbn [bind].
  cbn [as_frame]. rewrite Hstrip. cbn [bind]. unfold to_arrays.
  rewrite Hcols. cbn [bind]. rewrite Hrem. cbn [bind]. exact Hr.
Qed.

Lemma quantity_as_xr_scalar_any_witness :
  ∃ r,
    quantity_as_xr
      (scenario_with (ADict [("lvl", CNum 3); ("mrg", CNum 0)])) "foo" "equ"
      = Ok r ∧
    Forall2
      (fun col '(key, arr) =>
         key = col ∧ da_name arr = "foo" ∧ da_attrs arr = [] ∧
         da_dims arr = [] ∧
         Some (da_values arr) =
           (fun v => [([], v)])
             <$> assoc col [("lvl", CNum 3); ("mrg", CNum 0)])
      ["lvl"; "mrg"] r.
Proof.
  apply (quantity_as_xr_scalar_any
           (scenario_with (ADict [("lvl", CNum 3); ("mrg", CNum 0)]))
           "foo" "equ" (fun _ => Ok (ADict [("lvl", CNum 3); ("mrg", CNum 0)]))
           [("lvl", CNum 3); ("mrg", CNum 0)] ["lvl"; "mrg"]
           eq_refl eq_refl eq_refl).
  - apply (bool_decide_unpack _). by vm_compute.
  - by intros col Hcol.
  - intros key Hkey. by left.
Defined.
